(** * x2node-ws: the module entry point (index.js)

    A shallow embedding of [index.js] of the x2node-ws package: the
    factory [createResponse], the test [isResponse], the table
    [CHARSETS_MAP] and the reference body parser [TEXT_DESERIALIZER],
    together with the parts of the JavaScript runtime and of Node's
    [Buffer] that these four touch.  The classes the module only re-exports
    ([ServiceResponse], the request pipeline of [Application], the
    authenticator chain and [CachingActorsRegistry]) live in [lib/] and are
    modelled from the package's specification. *)

From Stdlib Require Import ZArith List Bool Lia.
From Stdlib Require Import Strings.String Strings.Ascii Strings.Byte.
From stdpp Require Import base option list gmap strings.

Local Open Scope Z_scope.

(** ** JavaScript strings and values *)

(** A JavaScript string is a sequence of UTF-16 code units. *)
Definition jsstring := list Z.

(** The code units of an ASCII literal of the source. *)
Definition lit (s : string) : jsstring :=
  map (fun a => Z.of_N (N_of_ascii a)) (list_ascii_of_string s).

Definition jsstring_eqb (a b : jsstring) : bool := bool_decide (a = b).

(** Prototype objects that matter to [instanceof] in this module. *)
Inductive proto :=
| Object_prototype
| ServiceResponse_prototype
| Other_prototype (name : string).

Definition proto_eqb (p q : proto) : bool :=
  match p, q with
  | Object_prototype, Object_prototype => true
  | ServiceResponse_prototype, ServiceResponse_prototype => true
  | Other_prototype a, Other_prototype b => String.eqb a b
  | _, _ => false
  end.

(** Values: primitives, and objects given by their prototype chain (nearest
    prototype first) and their own properties.  Numbers are the integral
    ones, which is all a status code needs. *)
#[warnings="-register-all"]
Inductive jsvalue :=
| JUndefined
| JNull
| JBool (b : bool)
| JNum (n : Z)
| JStr (s : jsstring)
| JObj (chain : list proto) (props : list (string * jsvalue)).

(** An object literal [{k1: v1, ...}]. *)
Definition object_literal (props : list (string * jsvalue)) : jsvalue :=
  JObj [Object_prototype] props.

(** [v instanceof C], for a constructor [C] whose [prototype] property is
    [p]: false on primitives, otherwise a walk up the prototype chain. *)
Definition instanceof (v : jsvalue) (p : proto) : bool :=
  match v with
  | JObj chain _ => existsb (proto_eqb p) chain
  | _ => false
  end.

(** What it is to be an instance: an object with the prototype on its
    chain. *)
Definition is_instance (v : jsvalue) (p : proto) : Prop :=
  exists chain props, v = JObj chain props /\ In p chain.

(** A thrown [Error]: only its [message] is read by the module. *)
Record JsError := mkError { message : jsstring }.

(** ** String.prototype.toUpperCase *)

(** The upper-case expansion of one code unit.  Spelled out are the
    letters of ASCII and Latin-1, and every unit of the Basic Multilingual
    Plane whose expansion contains an ASCII unit (the dotless i, the long
    s, and the SpecialCasing entries that expand to a base letter plus a
    mark or to a pair of letters).  A unit not spelled out is left as it
    is.  That is exact for the rest of ASCII and Latin-1; any further unit
    expands to non-ASCII units only, so it cannot take part in a key of
    [CHARSETS_MAP], before or after the conversion. *)
Definition upper_units (c : Z) : list Z :=
  if (0x61 <=? c) && (c <=? 0x7A) then [c - 0x20]
  else if c =? 0xB5 then [0x39C]
  else if c =? 0xDF then [0x53; 0x53]
  else if (0xE0 <=? c) && (c <=? 0xFE) && negb (c =? 0xF7) then [c - 0x20]
  else if c =? 0xFF then [0x178]
  else if c =? 0x131 then [0x49]
  else if c =? 0x149 then [0x2BC; 0x4E]
  else if c =? 0x17F then [0x53]
  else if c =? 0x1F0 then [0x4A; 0x30C]
  else if c =? 0x1E96 then [0x48; 0x331]
  else if c =? 0x1E97 then [0x54; 0x308]
  else if c =? 0x1E98 then [0x57; 0x30A]
  else if c =? 0x1E99 then [0x59; 0x30A]
  else if c =? 0x1E9A then [0x41; 0x2BE]
  else if c =? 0xFB00 then [0x46; 0x46]
  else if c =? 0xFB01 then [0x46; 0x49]
  else if c =? 0xFB02 then [0x46; 0x4C]
  else if c =? 0xFB03 then [0x46; 0x46; 0x49]
  else if c =? 0xFB04 then [0x46; 0x46; 0x4C]
  else if c =? 0xFB05 then [0x53; 0x54]
  else if c =? 0xFB06 then [0x53; 0x54]
  else [c].

Definition toUpperCase (s : jsstring) : jsstring := flat_map upper_units s.

(** ASCII-only case folding, the everyday reading of "case-insensitive"
    for charset names. *)
Definition ascii_upper_unit (c : Z) : Z :=
  if (0x61 <=? c) && (c <=? 0x7A) then c - 0x20 else c.

Definition ascii_lower_unit (c : Z) : Z :=
  if (0x41 <=? c) && (c <=? 0x5A) then c + 0x20 else c.

Definition is_ascii (s : jsstring) : Prop := Forall (fun c => 0 <= c < 0x80) s.

(** Equality up to the case of ASCII letters. *)
Definition ci_eq (a b : jsstring) : Prop :=
  map ascii_upper_unit a = map ascii_upper_unit b.

Definition quote : Z := 0x22.
Definition semicolon : Z := 0x3B.

(** Does a string hold a lower-case ASCII letter? *)
Definition has_lower (s : jsstring) : bool :=
  existsb (fun u => (0x61 <=? u) && (u <=? 0x7A)) s.

(** ** Regular expressions *)

Module RegExp.

(** The fragment of pattern syntax that [index.js] uses: atoms over one
    code unit, greedy [*] and [+] over such atoms, sequence, alternation
    and capturing groups. *)
Inductive node :=
| Eps
| One (p : Z -> bool)
| Star (p : Z -> bool)
| Plus (p : Z -> bool)
| Seq (a b : node)
| Alt (a b : node)
| Group (i : nat) (a : node).

(** [Canonicalize] of the language standard for a pattern with the [i]
    flag and without the [u] flag: the upper-case form when it is one
    code unit, except that a non-ASCII unit is never folded onto an
    ASCII one. *)
Definition Canonicalize (ch : Z) : Z :=
  match upper_units ch with
  | [cu] => if (0x80 <=? ch) && (cu <? 0x80) then ch else cu
  | _ => ch
  end.

(** A pattern character under the [i] flag. *)
Definition chr_i (c : Z) : Z -> bool :=
  fun x => Canonicalize x =? Canonicalize c.

(** A negated one-character class [[^c]] under the [i] flag. *)
Definition not_chr_i (c : Z) : Z -> bool :=
  fun x => negb (chr_i c x).

(** The class [\s]: white space and line terminators. *)
Definition is_space (c : Z) : bool :=
  ((0x09 <=? c) && (c <=? 0x0D)) || (c =? 0x20) || (c =? 0xA0)
  || (c =? 0x1680) || ((0x2000 <=? c) && (c <=? 0x200A))
  || (c =? 0x2028) || (c =? 0x2029) || (c =? 0x202F) || (c =? 0x205F)
  || (c =? 0x3000) || (c =? 0xFEFF).

(** A run of pattern characters. *)
Fixpoint str_i (cs : jsstring) : node :=
  match cs with
  | [] => Eps
  | c :: cs' => Seq (One (chr_i c)) (str_i cs')
  end.

(** The capture array: index 0 is the whole match, index [i] the text
    of group [i], [None] standing for [undefined]. *)
Definition captures := list (option jsstring).

Section Matcher.
Context {R : Type}.

(** Greedy repetition of a one-unit atom: take as many units as match,
    and give them back one at a time while the continuation fails. *)
Fixpoint star (p : Z -> bool) (s : jsstring)
         (k : jsstring -> option R) : option R :=
  match s with
  | c :: s' =>
      if p c then
        match star p s' k with
        | Some r => Some r
        | None => k s
        end
      else k s
  | [] => k []
  end.

(** The backtracking matcher in continuation-passing style: [s] is the
    input that remains, [caps] the captures so far, [k] the rest of the
    pattern. *)
Fixpoint run (r : node) (s : jsstring) (caps : captures)
         (k : jsstring -> captures -> option R) : option R :=
  match r with
  | Eps => k s caps
  | One p =>
      match s with
      | c :: s' => if p c then k s' caps else None
      | [] => None
      end
  | Star p => star p s (fun s' => k s' caps)
  | Plus p =>
      match s with
      | c :: s' => if p c then star p s' (fun s'' => k s'' caps) else None
      | [] => None
      end
  | Seq a b => run a s caps (fun s' caps' => run b s' caps' k)
  | Alt a b =>
      match run a s caps k with
      | Some res => Some res
      | None => run b s caps k
      end
  | Group i a =>
      run a s caps (fun s' caps' =>
        k s' (<[i := Some (take (length s - length s') s)]> caps'))
  end.
End Matcher.

(** A match attempt anchored at the head of [s], for a pattern with
    [ngroups] capturing groups. *)
Definition match_at (r : node) (ngroups : nat) (s : jsstring)
  : option captures :=
  run r s (replicate (S ngroups) None)
      (fun s' caps => Some (<[0%nat := Some (take (length s - length s') s)]> caps)).

(** [RegExp.prototype.exec] for a pattern without the [g] and [y] flags:
    the leftmost position at which the pattern matches. *)
Fixpoint exec (r : node) (ngroups : nat) (s : jsstring) : option captures :=
  match match_at r ngroups s with
  | Some m => Some m
  | None =>
      match s with
      | [] => None
      | _ :: s' => exec r ngroups s'
      end
  end.

(** [m[i]] on a match array. *)
Definition group (m : captures) (i : nat) : option jsstring :=
  match m !! i with
  | Some (Some s) => Some s
  | _ => None
  end.

End RegExp.

(** ** Node's Buffer *)

Module Buffer.

(** A buffer is a sequence of octets. *)
Definition t := list byte.

Definition octet (b : byte) : Z := Z.of_N (Byte.to_N b).

(** The character encodings [Buffer] supports. *)
Inductive encoding :=
| utf8 | ucs2 | latin1 | ascii | base64 | base64url | hex.

(** The encoding names [Buffer] accepts, compared after lower-casing.
    Lower-casing is done on ASCII letters here: the one non-ASCII unit
    that lowers to a single ASCII letter is the Kelvin sign (to k), and
    no name below has a k. *)
Definition getEncodingOps (name : jsstring) : option encoding :=
  let n := map ascii_lower_unit name in
  if jsstring_eqb n (lit "utf8") || jsstring_eqb n (lit "utf-8") then Some utf8
  else if jsstring_eqb n (lit "ucs2") || jsstring_eqb n (lit "ucs-2")
          || jsstring_eqb n (lit "utf16le") || jsstring_eqb n (lit "utf-16le")
       then Some ucs2
  else if jsstring_eqb n (lit "latin1") || jsstring_eqb n (lit "binary")
       then Some latin1
  else if jsstring_eqb n (lit "ascii") then Some ascii
  else if jsstring_eqb n (lit "base64") then Some base64
  else if jsstring_eqb n (lit "base64url") then Some base64url
  else if jsstring_eqb n (lit "hex") then Some hex
  else None.

(** *** UTF-8, decoded as the WHATWG Encoding standard prescribes *)

(** A sequence under way: the code point so far, the continuation bytes
    still due, and the range allowed for the next one. *)
Definition pending := (Z * nat * Z * Z)%type.

Definition utf8_lead (b : Z) : list Z * option pending :=
  if b <=? 0x7F then ([b], None)
  else if (0xC2 <=? b) && (b <=? 0xDF)
       then ([], Some (Z.land b 0x1F, 1%nat, 0x80, 0xBF))
  else if (0xE0 <=? b) && (b <=? 0xEF)
       then ([], Some (Z.land b 0xF, 2%nat,
                       (if b =? 0xE0 then 0xA0 else 0x80),
                       (if b =? 0xED then 0x9F else 0xBF)))
  else if (0xF0 <=? b) && (b <=? 0xF4)
       then ([], Some (Z.land b 0x7, 3%nat,
                       (if b =? 0xF0 then 0x90 else 0x80),
                       (if b =? 0xF4 then 0x8F else 0xBF)))
  else ([0xFFFD], None).

(** Code points of a byte sequence; an ill-formed part becomes U+FFFD
    and the offending byte is looked at again as a lead byte. *)
Fixpoint utf8_points (bs : list Z) (st : option pending) : list Z :=
  match bs with
  | [] => match st with None => [] | Some _ => [0xFFFD] end
  | b :: bs' =>
      match st with
      | None =>
          let '(out, st') := utf8_lead b in out ++ utf8_points bs' st'
      | Some (cp, n, lo, hi) =>
          if (lo <=? b) && (b <=? hi) then
            let cp' := Z.lor (Z.shiftl cp 6) (Z.land b 0x3F) in
            match n with
            | 1%nat => cp' :: utf8_points bs' None
            | _ => utf8_points bs' (Some (cp', Nat.pred n, 0x80, 0xBF))
            end
          else
            let '(out, st') := utf8_lead b in
            0xFFFD :: out ++ utf8_points bs' st'
      end
  end.

(** The UTF-16 code units of one code point. *)
Definition utf16_units (cp : Z) : list Z :=
  if cp <? 0x10000 then [cp]
  else [0xD800 + Z.shiftr (cp - 0x10000) 10;
        0xDC00 + Z.land (cp - 0x10000) 0x3FF].

Definition utf8Slice (data : t) : jsstring :=
  flat_map utf16_units (utf8_points (map octet data) None).

(** *** The one-byte and two-byte encodings *)

Definition latin1Slice (data : t) : jsstring := map octet data.

Definition asciiSlice (data : t) : jsstring :=
  map (fun b => Z.land (octet b) 0x7F) data.

(** Little-endian pairs; an odd byte at the end is dropped. *)
Fixpoint ucs2_units (bs : list Z) : jsstring :=
  match bs with
  | lo :: hi :: bs' => Z.lor lo (Z.shiftl hi 8) :: ucs2_units bs'
  | _ => []
  end.

Definition ucs2Slice (data : t) : jsstring := ucs2_units (map octet data).

(** *** The binary-to-text encodings *)

Definition hex_digit (n : Z) : Z := if n <? 10 then 0x30 + n else 0x57 + n.

Definition hexSlice (data : t) : jsstring :=
  flat_map (fun b => [hex_digit (Z.shiftr (octet b) 4);
                      hex_digit (Z.land (octet b) 0xF)]) data.

Definition b64_digit (c62 c63 : Z) (n : Z) : Z :=
  if n <? 26 then 0x41 + n
  else if n <? 52 then 0x61 + (n - 26)
  else if n <? 62 then 0x30 + (n - 52)
  else if n =? 62 then c62 else c63.

Fixpoint b64_units (c62 c63 : Z) (pad : list Z) (bs : list Z) : jsstring :=
  let d := b64_digit c62 c63 in
  match bs with
  | [] => []
  | [a] =>
      [d (Z.shiftr a 2); d (Z.shiftl (Z.land a 3) 4)] ++ pad ++ pad
  | [a; b] =>
      [d (Z.shiftr a 2);
       d (Z.lor (Z.shiftl (Z.land a 3) 4) (Z.shiftr b 4));
       d (Z.shiftl (Z.land b 0xF) 2)] ++ pad
  | a :: b :: c :: bs' =>
      d (Z.shiftr a 2)
      :: d (Z.lor (Z.shiftl (Z.land a 3) 4) (Z.shiftr b 4))
      :: d (Z.lor (Z.shiftl (Z.land b 0xF) 2) (Z.shiftr c 6))
      :: d (Z.land c 0x3F)
      :: b64_units c62 c63 pad bs'
  end.

Definition base64Slice (data : t) : jsstring :=
  b64_units 0x2B 0x2F [0x3D] (map octet data).

Definition base64urlSlice (data : t) : jsstring :=
  b64_units 0x2D 0x5F [] (map octet data).

Definition slice (e : encoding) (data : t) : jsstring :=
  match e with
  | utf8 => utf8Slice data
  | ucs2 => ucs2Slice data
  | latin1 => latin1Slice data
  | ascii => asciiSlice data
  | base64 => base64Slice data
  | base64url => base64urlSlice data
  | hex => hexSlice data
  end.

(** [buf.toString(encoding)] with a string for [encoding] and the whole
    buffer for the range.  An empty range gives the empty string before
    the encoding is looked up; an unknown name is a [TypeError]. *)
Definition toString (data : t) (name : jsstring) : JsError + jsstring :=
  match data with
  | [] => inr []
  | _ :: _ =>
      match getEncodingOps name with
      | Some e => inr (slice e data)
      | None => inl (mkError (lit "Unknown encoding: " ++ name))
      end
  end.

End Buffer.

(** ** ServiceResponse *)

(** Modelled from the spec: the class [ServiceResponse] of
    [lib/service-response.js], which [index.js] only imports.  A response
    has a numeric status fixed at construction, a header mapping in which a
    later value for a name overwrites the earlier one, and an entity; once
    emission has begun it can no longer be altered. *)
Record ServiceResponse := mkResponse {
  statusCode : Z;
  headers : gmap string jsstring;
  entity : jsvalue;
  committed : bool
}.

(** What a thrown value can be: a response used as a control signal, or
    any other failure. *)
Inductive thrown :=
| ThrownResponse (r : ServiceResponse)
| ThrownError (e : JsError).

(** The outcome of running a piece of code: a value, or a throw. *)
Inductive completion (A : Type) :=
| Normal (a : A)
| Throw (t : thrown).
Arguments Normal {A} a.
Arguments Throw {A} t.

(** Sequencing: a throw skips what follows. *)
#[global] Instance completion_ret : MRet completion := fun A a => Normal a.
#[global] Instance completion_bind : MBind completion :=
  fun A B f c =>
    match c with
    | Normal a => f a
    | Throw t => Throw t
    end.

(** Modelled from the spec: the constructor of [ServiceResponse], which
    requires a valid status code, a number from 100 to 599. *)
Definition ServiceResponse_new (code : jsvalue) : completion ServiceResponse :=
  match code with
  | JNum n =>
      if (100 <=? n) && (n <=? 599)
      then Normal (mkResponse n ∅ JUndefined false)
      else Throw (ThrownError (mkError (lit "Invalid status code.")))
  | _ => Throw (ThrownError (mkError (lit "Invalid status code.")))
  end.

(** Modelled from the spec: [setHeader] of [ServiceResponse]; it returns
    the response for chaining, a later value for a name overwrites the
    earlier one, and it fails with an illegal-state condition once the
    response is committed. *)
Definition setHeader (r : ServiceResponse) (name : string) (value : jsstring)
  : completion ServiceResponse :=
  if committed r
  then Throw (ThrownError (mkError (lit "Illegal state.")))
  else Normal (mkResponse (statusCode r) (<[name := value]> (headers r))
                          (entity r) (committed r)).

(** Modelled from the spec: [setEntity] of [ServiceResponse], the
    counterpart of [setHeader] for the entity. *)
Definition setEntity (r : ServiceResponse) (e : jsvalue)
  : completion ServiceResponse :=
  if committed r
  then Throw (ThrownError (mkError (lit "Illegal state.")))
  else Normal (mkResponse (statusCode r) (headers r) e (committed r)).

(** Modelled from the spec: the start of emission, after which the
    response is immutable. *)
Definition commit (r : ServiceResponse) : ServiceResponse :=
  mkResponse (statusCode r) (headers r) (entity r) true.

(** The operations a holder of a response can apply to it. *)
Inductive response_op :=
| OpSetHeader (name : string) (value : jsstring)
| OpSetEntity (e : jsvalue)
| OpCommit.

Definition apply_op (r : ServiceResponse) (o : response_op)
  : completion ServiceResponse :=
  match o with
  | OpSetHeader n v => setHeader r n v
  | OpSetEntity e => setEntity r e
  | OpCommit => Normal (commit r)
  end.

(** A run of operations; a failing one leaves the response as it was. *)
Fixpoint apply_ops (r : ServiceResponse) (os : list response_op)
  : ServiceResponse :=
  match os with
  | [] => r
  | o :: os' =>
      match apply_op r o with
      | Normal r' => apply_ops r' os'
      | Throw _ => apply_ops r os'
      end
  end.

(** Modelled from the spec: the JavaScript object a response is, an
    instance of the class [ServiceResponse] of [lib/service-response.js],
    so that its prototype chain starts at [ServiceResponse.prototype]. *)
Definition response_value (r : ServiceResponse) : jsvalue :=
  JObj [ServiceResponse_prototype; Object_prototype]
       [("_statusCode"%string, JNum (statusCode r));
        ("_entity"%string, entity r)].

(** ** The exports of index.js *)

(** [exports.createResponse]. *)
Definition createResponse (statusCode : jsvalue) : completion ServiceResponse :=
  ServiceResponse_new statusCode.

(** [exports.isResponse]. *)
Definition isResponse (obj : jsvalue) : bool :=
  instanceof obj ServiceResponse_prototype.

(** Truthiness of a value, as [||] tests it. *)
Definition truthy (v : jsvalue) : bool :=
  match v with
  | JUndefined | JNull => false
  | JBool b => b
  | JNum n => negb (n =? 0)
  | JStr s => match s with [] => false | _ :: _ => true end
  | JObj _ _ => true
  end.

Section Application.
(** The class [Application] of [lib/application.js], of which [index.js]
    uses the constructor only; it is taken as given. *)
Variable Application : Type.
Variable Application_new : jsvalue -> completion Application.

(** [exports.createApplication]: [new Application(options || {})]. *)
Definition createApplication (options : jsvalue) : completion Application :=
  Application_new (if truthy options then options else object_literal []).
End Application.

(** [CHARSETS_MAP]: the own properties of the object literal, in source
    order. *)
Definition CHARSETS_MAP : list (jsstring * jsstring) :=
  [ (lit "US-ASCII", lit "ascii");
    (lit "ISO-8859-1", lit "latin1");
    (lit "UTF-8", lit "utf8");
    (lit "UTF-16LE", lit "utf16le") ].

(** The property names [CHARSETS_MAP] inherits from [Object.prototype];
    lemma [toUpperCase_not_inherited] shows a lookup in
    [TEXT_DESERIALIZER] never hits one. *)
Definition Object_prototype_keys : list jsstring :=
  map lit [ "constructor"; "hasOwnProperty"; "isPrototypeOf";
            "propertyIsEnumerable"; "toLocaleString"; "toString"; "valueOf";
            "__defineGetter__"; "__defineSetter__"; "__lookupGetter__";
            "__lookupSetter__"; "__proto__" ]%string.

(** [o[key]] over the own properties. *)
Fixpoint get_property (o : list (jsstring * jsstring)) (key : jsstring)
  : option jsstring :=
  match o with
  | [] => None
  | (k, v) :: o' => if jsstring_eqb k key then Some v else get_property o' key
  end.

(** [a || b] where [a] is a string or [undefined]: [a] when it is truthy,
    that is, a non-empty string, else [b].  [on_a] brings the string into
    the type of the result. *)
Definition or_else {B} (a : option jsstring) (on_a : jsstring -> B) (b : B) : B :=
  match a with
  | Some (c :: s) => on_a (c :: s)
  | _ => b
  end.

(** The pattern literal of [TEXT_DESERIALIZER], flag [i]: a semicolon,
    [\s*], the characters [charset=], then the non-capturing alternation
    of a quote, group 1 (one or more units other than a quote) and a quote,
    with group 2 (a unit other than a quote, then any run of units other
    than a semicolon). *)
Definition charset_re : RegExp.node :=
  RegExp.Seq (RegExp.One (RegExp.chr_i semicolon))
  (RegExp.Seq (RegExp.Star RegExp.is_space)
  (RegExp.Seq (RegExp.str_i (lit "charset="))
  (RegExp.Alt
     (RegExp.Seq (RegExp.One (RegExp.chr_i quote))
     (RegExp.Seq (RegExp.Group 1 (RegExp.Plus (RegExp.not_chr_i quote)))
                 (RegExp.One (RegExp.chr_i quote))))
     (RegExp.Group 2
        (RegExp.Seq (RegExp.One (RegExp.not_chr_i quote))
                    (RegExp.Star (RegExp.not_chr_i semicolon))))))).

(** The head of that pattern alone: the semicolon, the white space and the
    keyword.  A header in which it does not occur has no charset
    parameter. *)
Definition lead_in_re : RegExp.node :=
  RegExp.Seq (RegExp.One (RegExp.chr_i semicolon))
  (RegExp.Seq (RegExp.Star RegExp.is_space)
              (RegExp.str_i (lit "charset="))).

Definition lead_in_free (s : jsstring) : Prop :=
  RegExp.exec lead_in_re 0 s = None.

(** [const m = /.../i.exec(ctype)], for [ctype] a string; [None] is
    [null]. *)
Definition charset_match (ctype : jsstring) : option RegExp.captures :=
  RegExp.exec charset_re 2 ctype.

(** [(m ? m[1] || m[2] : 'UTF-8')]; [None] is [undefined]. *)
Definition charset_of (ctype : jsstring) : option jsstring :=
  match charset_match ctype with
  | Some m => or_else (RegExp.group m 1) Some (RegExp.group m 2)
  | None => Some (lit "UTF-8")
  end.

(** [CHARSETS_MAP[charset.toUpperCase()] || charset]: the name handed to
    the decoder. *)
Definition decoder_name (charset : jsstring) : jsstring :=
  or_else (get_property CHARSETS_MAP (toUpperCase charset)) id charset.

(** The body of the [try] block, with a thrown error on the left. *)
Definition decode_text (data : Buffer.t) (ctype : jsstring)
  : JsError + jsvalue :=
  match charset_of ctype with
  | None =>
      inl (mkError
        (lit "Cannot read properties of undefined (reading 'toUpperCase')"))
  | Some charset =>
      match Buffer.toString data (decoder_name charset) with
      | inl err => inl err
      | inr text => inr (object_literal [("text"%string, JStr text)])
      end
  end.

(** [exports.TEXT_DESERIALIZER]. *)
Definition TEXT_DESERIALIZER (data : Buffer.t) (ctype : jsstring)
  : completion jsvalue :=
  match decode_text data ctype with
  | inr parsed => Normal parsed
  | inl err =>
      r ← ServiceResponse_new (JNum 415);
      r' ← setEntity r (object_literal
             [("errorCode"%string, JStr (lit "X2-415"));
              ("errorMessage"%string, JStr (message err))]);
      Throw (ThrownResponse r')
  end.

(** The two outcomes of [TEXT_DESERIALIZER], by what the decoder did: the
    parsed entity, or the 415 response that carries the decoder's
    message. *)
Definition unsupported_media_type (msg : jsstring) : ServiceResponse :=
  mkResponse 415 ∅
    (object_literal [("errorCode"%string, JStr (lit "X2-415"));
                     ("errorMessage"%string, JStr msg)])
    false.

Definition text_outcome (decoded : JsError + jsstring) : completion jsvalue :=
  match decoded with
  | inr text => Normal (object_literal [("text"%string, JStr text)])
  | inl err => Throw (ThrownResponse (unsupported_media_type (message err)))
  end.

(** UTF-8 of a string whose code units are all below the surrogates, as
    [Buffer.from(s, 'utf8')] writes it. *)
Definition utf8_bytes (c : Z) : list Z :=
  if c <? 0x80 then [c]
  else if c <? 0x800
       then [Z.lor 0xC0 (Z.shiftr c 6); Z.lor 0x80 (Z.land c 0x3F)]
  else [Z.lor 0xE0 (Z.shiftr c 12);
        Z.lor 0x80 (Z.land (Z.shiftr c 6) 0x3F);
        Z.lor 0x80 (Z.land c 0x3F)].

Definition utf8_encode (s : jsstring) : list Z := flat_map utf8_bytes s.

(** The string of the specification's decoding example, and its bytes. *)
Definition cafe : jsstring := lit "caf" ++ [0xE9].
Definition cafe_utf8 : Buffer.t := [x63; x61; x66; xc3; xa9].

(** *** Vocabulary for statements about headers and bodies *)

(** A charset name as the table's keys are written: not empty, and free of
    quotes and semicolons. *)
Definition plain_name (name : jsstring) : Prop :=
  name <> [] /\ Forall (fun c => c <> quote /\ c <> semicolon) name.

(** The header's first charset parameter names [name]: before it the
    lead-in does not occur, and it is written bare at the end of the
    header, bare before a further parameter, or between quotes. *)
Definition names_charset (ctype name : jsstring) : Prop :=
  exists pre ws kw post,
    lead_in_free pre /\
    Forall (fun c => RegExp.is_space c = true) ws /\
    ci_eq kw (lit "charset=") /\
    (ctype = pre ++ semicolon :: ws ++ kw ++ name \/
     ctype = pre ++ semicolon :: ws ++ kw ++ name ++ semicolon :: post \/
     ctype = pre ++ semicolon :: ws ++ kw ++ quote :: name ++ quote :: post).


(** The UTF-8 decoder run over a part of the input: what it has put out
    and the state it is left in. *)
Fixpoint utf8_run (bs : list Z) (st : option Buffer.pending)
  : list Z * option Buffer.pending :=
  match bs with
  | [] => ([], st)
  | b :: bs' =>
      match st with
      | None =>
          let '(out, st') := Buffer.utf8_lead b in
          let '(out', st'') := utf8_run bs' st' in (out ++ out', st'')
      | Some (cp, n, lo, hi) =>
          if (lo <=? b) && (b <=? hi) then
            let cp' := Z.lor (Z.shiftl cp 6) (Z.land b 0x3F) in
            match n with
            | 1%nat =>
                let '(out', st'') := utf8_run bs' None in (cp' :: out', st'')
            | _ => utf8_run bs' (Some (cp', Nat.pred n, 0x80, 0xBF))
            end
          else
            let '(out, st') := Buffer.utf8_lead b in
            let '(out', st'') := utf8_run bs' st' in
            (0xFFFD :: out ++ out', st'')
      end
  end.

(** A code unit that is a character by itself: any unit of the Basic
    Multilingual Plane but the surrogates. *)
Definition bmp_scalar (c : Z) : Prop :=
  0 <= c < 0xD800 \/ 0xE000 <= c < 0x10000.

Definition bmp_scalarb (c : Z) : bool :=
  ((0 <=? c) && (c <? 0xD800)) || ((0xE000 <=? c) && (c <? 0x10000)).

(** One code unit of UTF-8 round trips through the decoder. *)
Definition utf8_unit_ok (c : Z) : bool :=
  match utf8_run (utf8_bytes c) None with
  | ([c'], None) => c' =? c
  | _ => false
  end.

(** UTF-16LE of a string, as [Buffer.from(s, 'utf16le')] writes it. *)
Definition ucs2_bytes (c : Z) : list Z := [Z.land c 0xFF; Z.shiftr c 8].

Definition ucs2_encode (s : jsstring) : list Z := flat_map ucs2_bytes s.

Definition ucs2_unit_ok (c : Z) : bool :=
  match ucs2_bytes c with
  | [lo; hi] => Z.lor lo (Z.shiftl hi 8) =? c
  | _ => false
  end.

(** A test passed by each of the [n] integers from [lo] on. *)
Fixpoint all_from (ok : Z -> bool) (lo : Z) (n : nat) : bool :=
  match n with
  | O => true
  | S n' => ok lo && all_from ok (lo + 1) n'
  end.

(** The names of Node's encodings that are not keys of [CHARSETS_MAP] in
    upper case, each with the encoding it stands for. *)
Definition node_only_names : list (jsstring * Buffer.encoding) :=
  [ (lit "utf8", Buffer.utf8);
    (lit "ucs2", Buffer.ucs2);
    (lit "ucs-2", Buffer.ucs2);
    (lit "utf16le", Buffer.ucs2);
    (lit "latin1", Buffer.latin1);
    (lit "binary", Buffer.latin1);
    (lit "ascii", Buffer.ascii);
    (lit "base64", Buffer.base64);
    (lit "base64url", Buffer.base64url);
    (lit "hex", Buffer.hex) ].

(** ** The request pipeline *)

(** Modelled from the spec: the actor of [lib/], the resolved identity of
    a caller, with its stable identity key. *)
Record Actor := mkActor { actorKey : string }.

(** Modelled from the spec: the request context of [lib/application.js],
    the value a request's stages pass along: the raw body and its declared
    content type, the [Authorization] header, and what the stages add (the
    parsed entity, the actor, the handler's response). *)
Record RequestContext := mkContext {
  rawBody : Buffer.t;
  contentType : jsstring;
  authorization : option string;
  parsedEntity : option jsvalue;
  actor : option Actor;
  response : option ServiceResponse
}.

(** Modelled from the spec: what the pipeline of [lib/application.js]
    invokes for a request, recorded in the order it does. *)
Inductive event :=
| RanDeserializer
| RanAuthenticator (i : nat)
| RanHandler.

(** Modelled from the spec: the authenticator capability of
    [lib/basic-authenticator.js] and [lib/bearer-authenticator.js].
    [credentials] finds the authenticator's credential form in the request
    (or finds none); [verify] is the injected verification, which resolves
    an actor or raises the 401 or 403 response. *)
Record Authenticator := mkAuthenticator {
  credentials : RequestContext -> option string;
  verify : string -> completion Actor
}.

(** Modelled from the spec: the credential form of the Basic and Bearer
    authenticators of [lib/], an [Authorization] header that starts with
    the scheme's name and a space. *)
Definition scheme_credentials (scheme : string) (ctx : RequestContext)
  : option string :=
  match authorization ctx with
  | Some h =>
      if String.prefix (scheme +:+ " ") h
      then Some (String.substring (String.length scheme + 1)
                                  (String.length h - (String.length scheme + 1)) h)
      else None
  | None => None
  end.

(** Modelled from the spec: the two authenticators [index.js] re-exports
    from [lib/], each over an injected verification. *)
Definition BasicAuthenticator (verify : string -> completion Actor)
  : Authenticator :=
  mkAuthenticator (scheme_credentials "Basic") verify.

Definition BearerAuthenticator (verify : string -> completion Actor)
  : Authenticator :=
  mkAuthenticator (scheme_credentials "Bearer") verify.

(** Modelled from the spec: one attempt.  [Normal None] is not-applicable,
    [Normal (Some a)] is resolved, a throw is a rejection. *)
Definition attemptAuthenticate (a : Authenticator) (ctx : RequestContext)
  : completion (option Actor) :=
  match credentials a ctx with
  | None => Normal None
  | Some cred => a' ← verify a cred; Normal (Some a')
  end.

(** Modelled from the spec: the ordered chain of [Application].  The
    authenticators are tried in order while they answer not-applicable;
    [i] is the position of the head of [auths] in the configured chain. *)
Fixpoint authenticate (auths : list Authenticator) (i : nat)
         (ctx : RequestContext) : list event * completion (option Actor) :=
  match auths with
  | [] => ([], Normal None)
  | a :: rest =>
      match attemptAuthenticate a ctx with
      | Normal None =>
          let '(tr, res) := authenticate rest (S i) ctx in
          (RanAuthenticator i :: tr, res)
      | other => ([RanAuthenticator i], other)
      end
  end.

(** Modelled from the spec: a handler registration of
    [lib/application.js], with the body parser, the authenticators and the
    handler itself. *)
Record HandlerRegistration := mkHandler {
  requestEntityParser : Buffer.t -> jsstring -> completion jsvalue;
  authenticators : list Authenticator;
  handle : RequestContext -> completion ServiceResponse
}.

(** Modelled from the spec: a stage of the pipeline of
    [lib/application.js].  It reads the context and either passes on an
    updated context or throws; it reports what it invoked. *)
Definition stage := RequestContext -> list event * completion RequestContext.

(** Modelled from the spec: content negotiation in
    [lib/application.js]; the handler's parser turns the raw body into the
    parsed entity. *)
Definition deserializer_stage (h : HandlerRegistration) : stage :=
  fun ctx =>
    ([RanDeserializer],
     e ← requestEntityParser h (rawBody ctx) (contentType ctx);
     Normal (mkContext (rawBody ctx) (contentType ctx) (authorization ctx)
                       (Some e) (actor ctx) (response ctx))).

(** Modelled from the spec: authentication in [lib/application.js]; the
    chain's result becomes the request's actor, nobody when every
    authenticator answered not-applicable. *)
Definition authenticator_stage (h : HandlerRegistration) : stage :=
  fun ctx =>
    let '(tr, res) := authenticate (authenticators h) 0 ctx in
    (tr,
     a ← res;
     Normal (mkContext (rawBody ctx) (contentType ctx) (authorization ctx)
                       (parsedEntity ctx) a (response ctx))).

(** Modelled from the spec: dispatch in [lib/application.js]; the handler
    yields the response. *)
Definition handler_stage (h : HandlerRegistration) : stage :=
  fun ctx =>
    ([RanHandler],
     r ← handle h ctx;
     Normal (mkContext (rawBody ctx) (contentType ctx) (authorization ctx)
                       (parsedEntity ctx) (actor ctx) (Some r))).

(** Modelled from the spec: the stages of [lib/application.js] that follow
    the connection guards, in pipeline order. *)
Definition stages (h : HandlerRegistration) : list stage :=
  [deserializer_stage h; authenticator_stage h; handler_stage h].

(** Modelled from the spec: the stage loop of [lib/application.js].
    Stages run in order; the first throw ends the run. *)
Fixpoint run_stages (ss : list stage) (ctx : RequestContext)
  : list event * completion RequestContext :=
  match ss with
  | [] => ([], Normal ctx)
  | s :: rest =>
      match s ctx with
      | (tr, Normal ctx') =>
          let '(tr', res) := run_stages rest ctx' in (tr ++ tr', res)
      | (tr, Throw t) => (tr, Throw t)
      end
  end.

(** Modelled from the spec: the generic response for an internal failure.
    The spec fixes its status and that it is generic, not its wording. *)
Definition generic_500 : ServiceResponse :=
  mkResponse 500 ∅
    (object_literal [("errorCode"%string, JStr (lit "X2-500"));
                     ("errorMessage"%string, JStr (lit "Internal server error."))])
    false.

(** Modelled from the spec: what a request leaves behind in
    [lib/application.js], namely the invocations made, the failure detail
    kept for diagnostics, and the response written to the wire. *)
Record outcome := mkOutcome {
  invoked : list event;
  diagnostics : list JsError;
  wire : ServiceResponse
}.

(** Modelled from the spec: the stage boundary and emission.  A thrown
    response is emitted as it is; any other failure is logged and becomes
    the generic 500; a run that ends without a response is an internal
    failure too. *)
Definition emit (tr : list event) (res : completion RequestContext) : outcome :=
  match res with
  | Normal ctx =>
      match response ctx with
      | Some r => mkOutcome tr [] (commit r)
      | None =>
          mkOutcome tr [mkError (lit "No response.")] (commit generic_500)
      end
  | Throw (ThrownResponse r) => mkOutcome tr [] (commit r)
  | Throw (ThrownError e) => mkOutcome tr [e] (commit generic_500)
  end.

(** Modelled from the spec: a request through a list of stages and on to
    emission, as [lib/application.js] drives it. *)
Definition process_stages (ss : list stage) (ctx : RequestContext) : outcome :=
  let '(tr, res) := run_stages ss ctx in emit tr res.

(** Modelled from the spec: a request through the pipeline of its
    handler. *)
Definition process (h : HandlerRegistration) (ctx : RequestContext) : outcome :=
  process_stages (stages h) ctx.

(** ** CachingActorsRegistry *)

Module CachingActorsRegistry.

(** Modelled from the spec: a cache entry of
    [lib/caching-actors-registry.js], a cached identity and the time (in
    milliseconds) its validity ends. *)
Record CacheEntry := mkEntry { cachedActor : Actor; expiresAt : Z }.

(** Modelled from the spec: what a verification wrapped by
    [lib/caching-actors-registry.js] settles to, an actor or the rejection
    the wrapped authenticator raised. *)
Definition verdict := (ServiceResponse + Actor)%type.

(** Modelled from the spec: the registry of
    [lib/caching-actors-registry.js].  [cache] holds the entries by
    credential key, [recency] lists the cached keys from the most to the
    least recently used, and [pending] holds, for each key whose
    verification is under way, the callers that wait for it. *)
Record t := mkRegistry {
  ttl : Z;
  maxEntries : option nat;
  cache : gmap string CacheEntry;
  recency : list string;
  pending : gmap string (list nat)
}.

(** Modelled from the spec: a new registry of
    [lib/caching-actors-registry.js], configured with the time to live and
    the optional maximum entry count. *)
Definition empty (ttl : Z) (maxEntries : option nat) : t :=
  mkRegistry ttl maxEntries ∅ [] ∅.

(** Modelled from the spec: what the event loop hands to the registry of
    [lib/caching-actors-registry.js], a lookup by a caller or the settlement
    of the verification of a key, each at a time. *)
Inductive input :=
| Lookup (caller : nat) (key : string) (now : Z)
| Settle (key : string) (v : verdict) (now : Z).

(** Modelled from the spec: what the registry of
    [lib/caching-actors-registry.js] does in answer, namely start a
    verification or deliver a verdict to a caller. *)
Inductive effect :=
| CallVerify (key : string)
| Deliver (caller : nat) (key : string) (v : verdict).

(** Modelled from the spec: the lazy expiration check of
    [lib/caching-actors-registry.js]; an entry is served only before its
    expiration time. *)
Definition fresh (e : CacheEntry) (now : Z) : bool := now <? expiresAt e.

(** Modelled from the spec: the cache lookup proper of
    [lib/caching-actors-registry.js]. *)
Definition cached (r : t) (key : string) (now : Z) : option CacheEntry :=
  match cache r !! key with
  | Some e => if fresh e now then Some e else None
  | None => None
  end.

(** Modelled from the spec: the recency order of
    [lib/caching-actors-registry.js]; a key that is used moves to the
    front. *)
Definition touch (key : string) (l : list string) : list string :=
  key :: filter (fun k => k ≠ key) l.

(** Modelled from the spec: the eviction of
    [lib/caching-actors-registry.js].  With a maximum entry count reached,
    the least recently used key makes room. *)
Definition make_room (r : t) : gmap string CacheEntry * list string :=
  match maxEntries r with
  | Some n =>
      if (n <=? size (cache r))%nat then
        match last (recency r) with
        | Some old =>
            (delete old (cache r), filter (fun k => k ≠ old) (recency r))
        | None => (cache r, recency r)
        end
      else (cache r, recency r)
  | None => (cache r, recency r)
  end.

(** Modelled from the spec: how [lib/caching-actors-registry.js] stores a
    freshly verified actor, valid for the time to live. *)
Definition store (r : t) (key : string) (a : Actor) (now : Z) : t :=
  let '(c, l) := make_room r in
  mkRegistry (ttl r) (maxEntries r)
             (<[key := mkEntry a (now + ttl r)]> c) (touch key l)
             (delete key (pending r)).

(** Modelled from the spec: one turn of [lib/caching-actors-registry.js].
    A lookup is answered from a fresh entry; otherwise it joins the waiters
    of the key's pending marker, or installs the marker and starts the
    verification.  A settlement delivers the verdict to the waiters,
    removes the marker and stores an actor; a rejection is not stored. *)
Definition step (r : t) (i : input) : t * list effect :=
  match i with
  | Lookup caller key now =>
      match cached r key now with
      | Some e =>
          (mkRegistry (ttl r) (maxEntries r) (cache r)
                      (touch key (recency r)) (pending r),
           [Deliver caller key (inr (cachedActor e))])
      | None =>
          let c := delete key (cache r) in
          let l := filter (fun k => k ≠ key) (recency r) in
          match pending r !! key with
          | Some waiters =>
              (mkRegistry (ttl r) (maxEntries r) c l
                          (<[key := waiters ++ [caller]]> (pending r)),
               [])
          | None =>
              (mkRegistry (ttl r) (maxEntries r) c l
                          (<[key := [caller]]> (pending r)),
               [CallVerify key])
          end
      end
  | Settle key v now =>
      match pending r !! key with
      | Some waiters =>
          (match v with
           | inr a => store r key a now
           | inl _ =>
               mkRegistry (ttl r) (maxEntries r) (cache r) (recency r)
                          (delete key (pending r))
           end,
           map (fun c => Deliver c key v) waiters)
      | None => (r, [])
      end
  end.

(** Modelled from the spec: a run of the single-threaded event loop over
    the registry, one input after the other. *)
Fixpoint run (r : t) (ins : list input) : t * list effect :=
  match ins with
  | [] => (r, [])
  | i :: ins' =>
      let '(r1, out1) := step r i in
      let '(r2, out2) := run r1 ins' in
      (r2, out1 ++ out2)
  end.

(** The callers that look [key] up in a run, in order. *)
Fixpoint lookups_of (key : string) (ins : list input) : list nat :=
  match ins with
  | [] => []
  | Lookup c k _ :: ins' =>
      if decide (k = key) then c :: lookups_of key ins'
      else lookups_of key ins'
  | Settle _ _ _ :: ins' => lookups_of key ins'
  end.

(** No verification of [key] settles during the run. *)
Definition unsettled (key : string) (ins : list input) : Prop :=
  Forall (fun i => match i with
                   | Settle k _ _ => k ≠ key
                   | Lookup _ _ _ => True
                   end) ins.

(** The inputs that concern [key]. *)
Definition about (key : string) (i : input) : Prop :=
  match i with
  | Lookup _ k _ => k = key
  | Settle k _ _ => k = key
  end.

(** The verifications of [key] started in a run. *)
Definition calls_of (key : string) (out : list effect) : nat :=
  length (omap (fun e => match e with
                         | CallVerify k => if decide (k = key) then Some k else None
                         | Deliver _ _ _ => None
                         end) out).

(** The deliveries about [key] in a run. *)
Definition deliveries_of (key : string) (out : list effect)
  : list (nat * verdict) :=
  omap (fun e => match e with
                 | Deliver c k v => if decide (k = key) then Some (c, v) else None
                 | CallVerify _ => None
                 end) out.

End CachingActorsRegistry.

(** * Properties *)

(** ** The runtime: case folding and pattern atoms *)

Ltac case_if :=
  match goal with
  | |- context [if ?b then _ else _] =>
      let E := fresh "E" in destruct b eqn:E
  end.

Ltac bool_hyps :=
  repeat match goal with
    | H : _ && _ = true |- _ => apply andb_true_iff in H; destruct H
    | H : _ && _ = false |- _ => apply andb_false_iff in H; destruct H
    | H : _ || _ = true |- _ => apply orb_true_iff in H; destruct H
    | H : _ || _ = false |- _ => apply orb_false_iff in H; destruct H
    | H : negb _ = true |- _ => apply negb_true_iff in H
    | H : negb _ = false |- _ => apply negb_false_iff in H
    | H : (_ <=? _) = true |- _ => apply Z.leb_le in H
    | H : (_ <=? _) = false |- _ => apply Z.leb_gt in H
    | H : (_ <? _) = true |- _ => apply Z.ltb_lt in H
    | H : (_ <? _) = false |- _ => apply Z.ltb_ge in H
    | H : (_ =? _) = true |- _ => apply Z.eqb_eq in H
    | H : (_ =? _) = false |- _ => apply Z.eqb_neq in H
    end.

Ltac eqb_goal :=
  repeat match goal with
    | |- context [?a =? ?b] => destruct (Z.eqb_spec a b)
    end; try reflexivity; try lia.

(** An ASCII unit folds as ASCII does. *)
Lemma upper_units_ascii c :
  c < 0x80 -> upper_units c = [ascii_upper_unit c].
Proof.
  intros Hc. unfold upper_units, ascii_upper_unit.
  case_if; [reflexivity|].
  repeat (case_if; [bool_hyps; lia|]). reflexivity.
Qed.

(** Folding never yields a lower-case ASCII letter. *)
Lemma upper_units_no_lower c u :
  In u (upper_units c) -> ~ (0x61 <= u <= 0x7A).
Proof.
  unfold upper_units.
  repeat (case_if; [bool_hyps; simpl; intuition lia|]).
  bool_hyps; simpl; intuition lia.
Qed.

Lemma Canonicalize_ascii c :
  c < 0x80 -> RegExp.Canonicalize c = ascii_upper_unit c.
Proof.
  intros Hc. unfold RegExp.Canonicalize. rewrite upper_units_ascii by lia.
  case_if; [bool_hyps; lia | reflexivity].
Qed.

(** Under the [i] flag a unit outside the ASCII letters is matched by
    itself alone. *)
Lemma chr_i_exact c x :
  c < 0x41 -> RegExp.chr_i c x = (x =? c).
Proof.
  intros Hc. unfold RegExp.chr_i.
  rewrite (Canonicalize_ascii c) by lia.
  replace (ascii_upper_unit c) with c
    by (unfold ascii_upper_unit; case_if; [bool_hyps; lia | reflexivity]).
  unfold RegExp.Canonicalize, upper_units.
  repeat (case_if; [bool_hyps; simpl; repeat case_if; bool_hyps; eqb_goal|]).
  simpl; repeat case_if; bool_hyps; eqb_goal.
Qed.

Lemma ascii_upper_unit_range x c :
  0 <= c < 0x80 -> ascii_upper_unit x = ascii_upper_unit c -> 0 <= x < 0x80.
Proof.
  unfold ascii_upper_unit. intros Hc.
  repeat case_if; bool_hyps; lia.
Qed.

Lemma chr_i_fold c x :
  0 <= c < 0x80 -> ascii_upper_unit x = ascii_upper_unit c ->
  RegExp.chr_i c x = true.
Proof.
  intros Hc Hx. pose proof (ascii_upper_unit_range x c Hc Hx).
  unfold RegExp.chr_i. rewrite !Canonicalize_ascii by lia.
  rewrite Hx. apply Z.eqb_refl.
Qed.

(** ** The matcher *)

Section MatcherFacts.
Context {R : Type}.

(** A greedy run stops where the atom stops, when what follows matches
    there. *)
Lemma star_greedy (p : Z -> bool) (run_ rest : jsstring)
      (k : jsstring -> option R) (r : R) :
  Forall (fun c => p c = true) run_ ->
  k rest = Some r ->
  match rest with [] => True | c :: _ => p c = false end ->
  RegExp.star p (run_ ++ rest) k = Some r.
Proof.
  intros Hrun Hk Hstop. induction Hrun as [|c l Hc _ IH]; simpl.
  - destruct rest as [|c rest']; [exact Hk|]. simpl. rewrite Hstop. exact Hk.
  - rewrite Hc, IH. reflexivity.
Qed.

(** A run of pattern characters consumes a text that matches unit by
    unit. *)
Lemma run_str_i (pat text rest : jsstring) caps
      (k : jsstring -> RegExp.captures -> option R) :
  Forall2 (fun x c => RegExp.chr_i c x = true) text pat ->
  RegExp.run (RegExp.str_i pat) (text ++ rest) caps k = k rest caps.
Proof.
  intros H. induction H as [|x c text pat Hx _ IH]; simpl.
  - reflexivity.
  - rewrite Hx. exact IH.
Qed.
End MatcherFacts.

Lemma ci_eq_chr_i (text pat : jsstring) :
  is_ascii pat -> ci_eq text pat ->
  Forall2 (fun x c => RegExp.chr_i c x = true) text pat.
Proof.
  unfold ci_eq, is_ascii. intros Hp. revert text.
  induction Hp as [|c pat Hc _ IH]; intros [|x text] H; simpl in H;
    try discriminate; constructor.
  - injection H as H1 H2. apply chr_i_fold; [exact Hc | exact H1].
  - injection H as H1 H2. apply IH, H2.
Qed.

(** ** The charset pattern *)

(** The pattern needs a semicolon to start. *)
Lemma match_at_needs_semicolon (s : jsstring) :
  match s with [] => True | c :: _ => c <> semicolon end ->
  RegExp.match_at charset_re 2 s = None.
Proof.
  unfold RegExp.match_at, charset_re, semicolon. simpl.
  destruct s as [|c s]; [reflexivity|]. intros Hc.
  rewrite chr_i_exact by lia.
  destruct (Z.eqb_spec c 0x3B); [contradiction | reflexivity].
Qed.

Lemma exec_skip (pre s : jsstring) :
  Forall (fun c => c <> semicolon) pre ->
  RegExp.exec charset_re 2 (pre ++ s) = RegExp.exec charset_re 2 s.
Proof.
  induction 1 as [|c pre Hc _ IH]; [reflexivity|].
  change ((c :: pre) ++ s) with (c :: (pre ++ s)).
  cbn [RegExp.exec]. rewrite match_at_needs_semicolon by exact Hc.
  exact IH.
Qed.

(** Without a semicolon nothing matches. *)
Lemma exec_no_semicolon (s : jsstring) :
  Forall (fun c => c <> semicolon) s -> charset_match s = None.
Proof.
  intros H. unfold charset_match.
  rewrite <- (app_nil_r s), exec_skip by exact H.
  reflexivity.
Qed.

Lemma consumed_prefix (a b : jsstring) :
  take (length (a ++ b) - length b) (a ++ b) = a.
Proof.
  rewrite length_app.
  replace (length a + length b - length b)%nat with (length a) by lia.
  apply take_app_length.
Qed.

Lemma not_chr_i_exact c x :
  c < 0x41 -> RegExp.not_chr_i c x = negb (x =? c).
Proof. intros H. unfold RegExp.not_chr_i. now rewrite chr_i_exact. Qed.

Lemma Forall_not_chr_i c (s : jsstring) :
  c < 0x41 -> Forall (fun x => x <> c) s ->
  Forall (fun x => RegExp.not_chr_i c x = true) s.
Proof.
  intros Hc H. eapply Forall_impl; [exact H|]. intros x Hx. cbv beta.
  rewrite not_chr_i_exact by exact Hc.
  destruct (Z.eqb_spec x c); [contradiction | reflexivity].
Qed.

(** The keyword is never white space. *)
Lemma keyword_stops_space (kw rest : jsstring) :
  ci_eq kw (lit "charset=") ->
  match kw ++ rest with [] => True | c :: _ => RegExp.is_space c = false end.
Proof.
  unfold ci_eq. destruct kw as [|x kw]; [discriminate|].
  intros H. injection H as Hx _. simpl.
  unfold ascii_upper_unit in Hx. revert Hx. case_if; bool_hyps; intros Hx.
  - replace x with 0x63 by (simpl in Hx; lia). reflexivity.
  - replace x with 0x43 by (simpl in Hx; lia). reflexivity.
  - replace x with 0x43 by (simpl in Hx; lia). reflexivity.
Qed.

Lemma keyword_matches (kw : jsstring) :
  ci_eq kw (lit "charset=") ->
  Forall2 (fun x c => RegExp.chr_i c x = true) kw (lit "charset=").
Proof.
  apply ci_eq_chr_i. unfold is_ascii.
  repeat constructor; vm_compute; discriminate.
Qed.

Section CharsetPattern.
Context {R : Type}.
Variables (ws kw name post : jsstring).
Variable caps : RegExp.captures.
Variable k : jsstring -> RegExp.captures -> option R.
Variable r : R.
Hypothesis Hws : Forall (fun c => RegExp.is_space c = true) ws.
Hypothesis Hkw : ci_eq kw (lit "charset=").

(** The quoted form: group 1 takes what stands between the quotes. *)
Lemma run_quoted :
  name <> [] ->
  Forall (fun c => c <> quote) name ->
  k post (<[1%nat := Some name]> caps) = Some r ->
  RegExp.run charset_re
    (semicolon :: ws ++ kw ++ quote :: name ++ quote :: post) caps k
  = Some r.
Proof.
  intros Hne Hname Hk. unfold charset_re. cbn [RegExp.run].
  rewrite chr_i_exact by (unfold semicolon; lia). rewrite Z.eqb_refl.
  apply star_greedy; [exact Hws | | apply keyword_stops_space, Hkw].
  rewrite run_str_i by (apply keyword_matches, Hkw).
  rewrite chr_i_exact by (unfold quote; lia). rewrite Z.eqb_refl.
  destruct name as [|c n']; [contradiction|].
  inversion Hname as [|? ? Hc Hn']; subst.
  change ((c :: n') ++ quote :: post) with (c :: (n' ++ quote :: post)).
  cbv iota beta.
  rewrite not_chr_i_exact by (unfold quote; lia).
  destruct (Z.eqb_spec c quote) as [?|_]; [contradiction|]. cbn [negb].
  rewrite (star_greedy _ n' (quote :: post) _ r); [reflexivity | | | ].
  - apply Forall_not_chr_i; [unfold quote; lia | exact Hn'].
  - rewrite chr_i_exact by (unfold quote; lia). rewrite Z.eqb_refl.
    change (c :: n' ++ quote :: post) with ((c :: n') ++ quote :: post).
    rewrite consumed_prefix. exact Hk.
  - rewrite not_chr_i_exact by (unfold quote; lia).
    now rewrite Z.eqb_refl.
Qed.

(** The unquoted form: group 2 takes what stands before the next
    semicolon, or the rest of the header. *)
Lemma run_unquoted (c : Z) (n' : jsstring) :
  name = c :: n' ->
  c <> quote ->
  Forall (fun x => x <> semicolon) n' ->
  match post with [] => True | x :: _ => x = semicolon end ->
  k post (<[2%nat := Some name]> caps) = Some r ->
  RegExp.run charset_re (semicolon :: ws ++ kw ++ name ++ post) caps k
  = Some r.
Proof.
  intros -> Hc Hn' Hpost Hk. unfold charset_re. cbn [RegExp.run].
  rewrite chr_i_exact by (unfold semicolon; lia). rewrite Z.eqb_refl.
  apply star_greedy; [exact Hws | | apply keyword_stops_space, Hkw].
  rewrite run_str_i by (apply keyword_matches, Hkw).
  change ((c :: n') ++ post) with (c :: (n' ++ post)).
  cbv iota beta.
  rewrite chr_i_exact by (unfold quote; lia).
  destruct (Z.eqb_spec c quote) as [?|_]; [contradiction|].
  rewrite not_chr_i_exact by (unfold quote; lia).
  destruct (Z.eqb_spec c quote) as [?|_]; [contradiction|]. cbn [negb].
  apply star_greedy.
  - apply Forall_not_chr_i; [unfold semicolon; lia | exact Hn'].
  - change (c :: n' ++ post) with ((c :: n') ++ post).
    rewrite consumed_prefix. exact Hk.
  - destruct post as [|x post']; [exact I|]. subst x.
    rewrite not_chr_i_exact by (unfold semicolon; lia).
    now rewrite Z.eqb_refl.
Qed.
End CharsetPattern.

(** Conversely, whatever the pattern matches, one of its two groups took
    a non-empty text. *)
Section MatcherInversion.
Context {R : Type}.

Lemma star_inv (p : Z -> bool) (s : jsstring) (k : jsstring -> option R) r :
  RegExp.star p s k = Some r ->
  exists a b, s = a ++ b /\ Forall (fun c => p c = true) a /\ k b = Some r.
Proof.
  induction s as [|c s IH]; simpl.
  - intros H. now exists [], [].
  - destruct (p c) eqn:Hc; [|intros H; now exists [], (c :: s)].
    destruct (RegExp.star p s k) as [r'|] eqn:E.
    + intros [= <-]. destruct (IH eq_refl) as (a & b & -> & Ha & Hk).
      exists (c :: a), b. repeat split; [constructor; assumption | exact Hk].
    + intros H. now exists [], (c :: s).
Qed.

Lemma run_str_i_inv (pat s : jsstring) caps
      (k : jsstring -> RegExp.captures -> option R) r :
  RegExp.run (RegExp.str_i pat) s caps k = Some r ->
  exists text rest,
    s = text ++ rest /\
    Forall2 (fun x c => RegExp.chr_i c x = true) text pat /\
    k rest caps = Some r.
Proof.
  revert s. induction pat as [|c pat IH]; intros s; simpl.
  - intros H. exists [], s. repeat split; [constructor | exact H].
  - destruct s as [|x s]; [discriminate|].
    destruct (RegExp.chr_i c x) eqn:Hx; [|discriminate].
    intros H. destruct (IH _ H) as (text & rest & -> & Ht & Hk).
    exists (x :: text), rest. repeat split; [constructor; assumption | exact Hk].
Qed.

(** A match of the charset pattern starts with the lead-in. *)
Lemma run_charset_lead_in (s : jsstring) caps
      (k : jsstring -> RegExp.captures -> option R) r :
  RegExp.run charset_re s caps k = Some r ->
  exists ws kw rest,
    s = semicolon :: ws ++ kw ++ rest /\
    Forall (fun c => RegExp.is_space c = true) ws /\
    Forall2 (fun x c => RegExp.chr_i c x = true) kw (lit "charset=").
Proof.
  unfold charset_re. cbn [RegExp.run].
  destruct s as [|c0 s0]; [discriminate|].
  rewrite chr_i_exact by (unfold semicolon; lia).
  destruct (Z.eqb_spec c0 semicolon) as [->|]; [|discriminate].
  intros H. apply star_inv in H as (ws & s1 & -> & Hws & H).
  apply run_str_i_inv in H as (kw & s2 & -> & Hkw & H).
  now exists ws, kw, s2.
Qed.

Lemma run_charset_inv (s : jsstring) caps
      (k : jsstring -> RegExp.captures -> option R) r :
  RegExp.run charset_re s caps k = Some r ->
  exists rest name,
    name <> [] /\
    (k rest (<[1%nat := Some name]> caps) = Some r \/
     k rest (<[2%nat := Some name]> caps) = Some r).
Proof.
  unfold charset_re. cbn [RegExp.run].
  destruct s as [|c0 s0]; [discriminate|].
  destruct (RegExp.chr_i semicolon c0); [|discriminate].
  intros H. apply star_inv in H as (ws & s1 & -> & _ & H).
  apply run_str_i_inv in H as (kw & s2 & -> & _ & H).
  destruct s2 as [|c s3]; [discriminate|].
  match type of H with
  | match ?first with _ => _ end = _ => destruct first as [r'|] eqn:E
  end.
  - injection H as <-.
    destruct (RegExp.chr_i quote c); [|discriminate].
    destruct s3 as [|c1 s4]; [discriminate|].
    destruct (RegExp.not_chr_i quote c1); [|discriminate].
    apply star_inv in E as (a & b & -> & _ & E).
    destruct b as [|c2 b]; [discriminate|].
    destruct (RegExp.chr_i quote c2); [|discriminate].
    change (c1 :: a ++ c2 :: b) with ((c1 :: a) ++ c2 :: b) in E.
    rewrite consumed_prefix in E.
    exists b, (c1 :: a). split; [discriminate | now left].
  - destruct (RegExp.not_chr_i quote c); [|discriminate].
    apply star_inv in H as (a & b & -> & _ & H).
    change (c :: a ++ b) with ((c :: a) ++ b) in H.
    rewrite consumed_prefix in H.
    exists b, (c :: a). split; [discriminate | now right].
Qed.
End MatcherInversion.

Lemma match_at_charset_groups (s : jsstring) m :
  RegExp.match_at charset_re 2 s = Some m ->
  exists name, name <> [] /\
    or_else (RegExp.group m 1) Some (RegExp.group m 2) = Some name.
Proof.
  unfold RegExp.match_at. intros H.
  apply run_charset_inv in H as (rest & name & Hne & [H|H]);
    injection H as <-; exists name; (split; [exact Hne|]);
    destruct name; try contradiction; reflexivity.
Qed.

Lemma exec_charset_groups (s : jsstring) m :
  RegExp.exec charset_re 2 s = Some m ->
  exists name, name <> [] /\
    or_else (RegExp.group m 1) Some (RegExp.group m 2) = Some name.
Proof.
  induction s as [|c s IH]; cbn [RegExp.exec];
    destruct (RegExp.match_at charset_re 2 _) as [m'|] eqn:E;
    intros H; try discriminate.
  - injection H as <-. exact (match_at_charset_groups _ _ E).
  - exact (IH H).
Qed.

(** The charset expression is always a non-empty string: the read of
    [toUpperCase] never meets [undefined]. *)
Lemma charset_of_defined (ctype : jsstring) :
  exists charset, charset <> [] /\ charset_of ctype = Some charset.
Proof.
  unfold charset_of, charset_match.
  destruct (RegExp.exec charset_re 2 ctype) as [m|] eqn:E.
  - destruct (exec_charset_groups _ _ E) as (name & Hne & Hn). now exists name.
  - exists (lit "UTF-8"). split; [discriminate | reflexivity].
Qed.

(** *** Where the leftmost match is *)

Lemma Canonicalize_low (x : Z) :
  RegExp.Canonicalize x < 0x80 -> x < 0x80.
Proof.
  unfold RegExp.Canonicalize.
  destruct (upper_units x) as [|cu [|]]; try (intros; assumption).
  case_if; bool_hyps; intros; lia.
Qed.

Lemma chr_i_inv (c x : Z) :
  c < 0x80 -> RegExp.chr_i c x = true ->
  ascii_upper_unit x = ascii_upper_unit c.
Proof.
  unfold RegExp.chr_i. intros Hc H. apply Z.eqb_eq in H.
  rewrite (Canonicalize_ascii c Hc) in H.
  assert (Hx : x < 0x80).
  { apply Canonicalize_low. rewrite H. unfold ascii_upper_unit.
    case_if; lia. }
  now rewrite (Canonicalize_ascii x Hx) in H.
Qed.

Lemma chr_i_ci_eq (text pat : jsstring) :
  is_ascii pat ->
  Forall2 (fun x c => RegExp.chr_i c x = true) text pat ->
  ci_eq text pat.
Proof.
  unfold is_ascii, ci_eq. intros Hp H. induction H as [|x c text pat Hx _ IH].
  - reflexivity.
  - inversion Hp as [|? ? Hc Hp']; subst. simpl.
    rewrite (chr_i_inv c x) by (lia || exact Hx). now rewrite IH.
Qed.

Lemma keyword_is_ascii : is_ascii (lit "charset=").
Proof. unfold is_ascii. repeat constructor; vm_compute; discriminate. Qed.

Lemma ci_eq_avoids (d : Z) (text pat : jsstring) :
  ascii_upper_unit d = d ->
  ci_eq text pat ->
  Forall (fun c => ascii_upper_unit c <> d) pat ->
  Forall (fun c => c <> d) text.
Proof.
  unfold ci_eq. intros Hd Heq Hpat. revert text Heq.
  induction Hpat as [|c pat Hc _ IH]; intros [|x text] Heq; simpl in Heq;
    try discriminate; constructor.
  - injection Heq as Hx _. intros ->. apply Hc. now rewrite <- Hx.
  - injection Heq as _ Hr. exact (IH _ Hr).
Qed.

Lemma keyword_no_semicolon (kw : jsstring) :
  ci_eq kw (lit "charset=") -> Forall (fun c => c <> semicolon) kw.
Proof.
  intros H. apply (ci_eq_avoids semicolon _ _ eq_refl H).
  repeat constructor; vm_compute; discriminate.
Qed.

Lemma space_not_semicolon (ws : jsstring) :
  Forall (fun c => RegExp.is_space c = true) ws ->
  Forall (fun c => c <> semicolon) ws.
Proof.
  intros H. eapply Forall_impl; [exact H|].
  intros c Hc ->. discriminate Hc.
Qed.

(** A text without a semicolon that heads [b ++ ; ...] heads [b]. *)
Lemma heads_before_semicolon (x y b rest : jsstring) :
  x ++ y = b ++ semicolon :: rest ->
  Forall (fun c => c <> semicolon) x ->
  exists b', b = x ++ b'.
Proof.
  revert b. induction x as [|c x IH]; intros b Heq Hx.
  - now exists b.
  - inversion Hx as [|? ? Hc Hx']; subst.
    destruct b as [|c' b]; simpl in Heq.
    + injection Heq as -> _. contradiction.
    + injection Heq as -> Heq.
      destruct (IH b Heq Hx') as [b' ->]. now exists b'.
Qed.

Lemma lead_in_matches (ws kw rest : jsstring) :
  Forall (fun c => RegExp.is_space c = true) ws ->
  ci_eq kw (lit "charset=") ->
  exists m,
    RegExp.match_at lead_in_re 0 (semicolon :: ws ++ kw ++ rest) = Some m.
Proof.
  intros Hws Hkw. unfold RegExp.match_at, lead_in_re. cbn [RegExp.run].
  rewrite chr_i_exact by (unfold semicolon; lia). rewrite Z.eqb_refl.
  eexists. apply star_greedy;
    [exact Hws | | apply keyword_stops_space, Hkw].
  rewrite run_str_i by (apply keyword_matches, Hkw). reflexivity.
Qed.

(** No match of the charset pattern starts inside a text that is free of
    the lead-in and is followed by a semicolon. *)
Lemma match_at_lead_in_free (b rest : jsstring) :
  b <> [] ->
  RegExp.match_at lead_in_re 0 b = None ->
  RegExp.match_at charset_re 2 (b ++ semicolon :: rest) = None.
Proof.
  intros Hb Hfree.
  destruct (RegExp.match_at charset_re 2 (b ++ semicolon :: rest))
    as [m|] eqn:E; [exfalso | reflexivity].
  unfold RegExp.match_at in E.
  apply run_charset_lead_in in E as (ws & kw & tl & Heq & Hws & Hkw).
  apply (chr_i_ci_eq _ _ keyword_is_ascii) in Hkw.
  destruct b as [|c b]; [contradiction|].
  simpl in Heq. injection Heq as -> Heq.
  rewrite app_assoc in Heq. symmetry in Heq.
  apply heads_before_semicolon in Heq as [b' ->].
  - rewrite <- app_assoc in Hfree.
    destruct (lead_in_matches ws kw b' Hws Hkw) as [m' Hm'].
    congruence.
  - apply Forall_app. split;
      [apply space_not_semicolon, Hws | apply keyword_no_semicolon, Hkw].
Qed.

Lemma exec_lead_in_skip (pre rest : jsstring) :
  lead_in_free pre ->
  RegExp.exec charset_re 2 (pre ++ semicolon :: rest)
  = RegExp.exec charset_re 2 (semicolon :: rest).
Proof.
  unfold lead_in_free. induction pre as [|c pre IH]; [reflexivity|].
  cbn [RegExp.exec].
  destruct (RegExp.match_at lead_in_re 0 (c :: pre)) eqn:E; [discriminate|].
  intros Hpre. change ((c :: pre) ++ semicolon :: rest)
    with (c :: (pre ++ semicolon :: rest)).
  cbn [RegExp.exec].
  change (c :: (pre ++ semicolon :: rest))
    with ((c :: pre) ++ semicolon :: rest).
  rewrite (match_at_lead_in_free (c :: pre) rest) by (discriminate || exact E).
  exact (IH Hpre).
Qed.

(** A text without a semicolon is free of the lead-in. *)
Lemma no_semicolon_lead_in_free (s : jsstring) :
  Forall (fun c => c <> semicolon) s -> lead_in_free s.
Proof.
  unfold lead_in_free. induction 1 as [|c s Hc _ IH]; [reflexivity|].
  cbn [RegExp.exec]. unfold RegExp.match_at at 1, lead_in_re.
  cbn [RegExp.run]. rewrite chr_i_exact by (unfold semicolon; lia).
  destruct (Z.eqb_spec c semicolon); [contradiction | exact IH].
Qed.

(** A header free of the lead-in has no charset parameter. *)
Lemma lead_in_free_no_match (s : jsstring) :
  lead_in_free s -> charset_match s = None.
Proof.
  unfold lead_in_free, charset_match.
  induction s as [|c s IH]; [reflexivity|].
  cbn [RegExp.exec].
  destruct (RegExp.match_at lead_in_re 0 (c :: s)) eqn:E; [discriminate|].
  intros Hs.
  destruct (RegExp.match_at charset_re 2 (c :: s)) as [m|] eqn:Em;
    [exfalso | exact (IH Hs)].
  unfold RegExp.match_at in Em.
  apply run_charset_lead_in in Em as (ws & kw & tl & Heq & Hws & Hkw).
  apply (chr_i_ci_eq _ _ keyword_is_ascii) in Hkw.
  rewrite Heq in E.
  destruct (lead_in_matches ws kw tl Hws Hkw) as [m' Hm']. congruence.
Qed.

Section CharsetParameter.
Variables (pre ws kw name post : jsstring).
Hypothesis Hpre : lead_in_free pre.
Hypothesis Hws : Forall (fun c => RegExp.is_space c = true) ws.
Hypothesis Hkw : ci_eq kw (lit "charset=").
Hypothesis Hne : name <> [].

Lemma charset_match_quoted :
  Forall (fun c => c <> quote) name ->
  exists whole,
    charset_match (pre ++ semicolon :: ws ++ kw ++ quote :: name ++ quote :: post)
    = Some [Some whole; Some name; None].
Proof.
  intros Hname. unfold charset_match. rewrite exec_lead_in_skip by exact Hpre.
  cbn [RegExp.exec]. unfold RegExp.match_at.
  erewrite run_quoted; eauto.
Qed.

Lemma charset_match_unquoted :
  match name with [] => True | c :: _ => c <> quote end ->
  Forall (fun x => x <> semicolon) (tail name) ->
  match post with [] => True | x :: _ => x = semicolon end ->
  exists whole,
    charset_match (pre ++ semicolon :: ws ++ kw ++ name ++ post)
    = Some [Some whole; None; Some name].
Proof.
  intros Hc Hn' Hpost. unfold charset_match.
  rewrite exec_lead_in_skip by exact Hpre.
  cbn [RegExp.exec]. unfold RegExp.match_at.
  destruct name as [|c n'] eqn:E; [contradiction|].
  erewrite run_unquoted; eauto.
Qed.

Lemma charset_of_quoted :
  Forall (fun c => c <> quote) name ->
  charset_of (pre ++ semicolon :: ws ++ kw ++ quote :: name ++ quote :: post)
  = Some name.
Proof.
  intros Hname. destruct (charset_match_quoted Hname) as [whole Hm].
  unfold charset_of. rewrite Hm. destruct name; [contradiction | reflexivity].
Qed.

Lemma charset_of_unquoted :
  match name with [] => True | c :: _ => c <> quote end ->
  Forall (fun x => x <> semicolon) (tail name) ->
  match post with [] => True | x :: _ => x = semicolon end ->
  charset_of (pre ++ semicolon :: ws ++ kw ++ name ++ post) = Some name.
Proof.
  intros Hc Hn' Hpost.
  destruct (charset_match_unquoted Hc Hn' Hpost) as [whole Hm].
  unfold charset_of. rewrite Hm. destruct name; [contradiction | reflexivity].
Qed.
End CharsetParameter.

(** ** The decoder name *)

Lemma get_property_CHARSETS_MAP key v :
  get_property CHARSETS_MAP key = Some v -> In (key, v) CHARSETS_MAP /\ v <> [].
Proof.
  unfold CHARSETS_MAP, get_property, jsstring_eqb.
  repeat case_bool_decide; intros Hv; try discriminate;
    injection Hv as <-; subst key; (split; [simpl; tauto | discriminate]).
Qed.

Lemma get_property_CHARSETS_MAP_In key v :
  In (key, v) CHARSETS_MAP -> get_property CHARSETS_MAP key = Some v.
Proof.
  unfold CHARSETS_MAP. simpl.
  intros [H|[H|[H|[H|[]]]]]; injection H as <- <-; reflexivity.
Qed.

Lemma decoder_name_spec (charset : jsstring) :
  decoder_name charset =
  match get_property CHARSETS_MAP (toUpperCase charset) with
  | Some canonical => canonical
  | None => charset
  end.
Proof.
  unfold decoder_name, or_else.
  destruct (get_property CHARSETS_MAP (toUpperCase charset)) as [v|] eqn:E;
    [|reflexivity].
  apply get_property_CHARSETS_MAP in E as [_ Hv].
  destruct v; [contradiction | reflexivity].
Qed.

(** Folding the ASCII case of a name folds it altogether. *)
Lemma ci_eq_toUpperCase (name key : jsstring) :
  is_ascii key -> ci_eq name key ->
  toUpperCase name = map ascii_upper_unit key.
Proof.
  unfold ci_eq, is_ascii, toUpperCase. intros Hk. revert name.
  induction Hk as [|c key Hc _ IH]; intros [|x name] H; simpl in H;
    try discriminate; [reflexivity|].
  injection H as Hx Hrest. simpl.
  pose proof (ascii_upper_unit_range x c Hc Hx).
  rewrite upper_units_ascii by lia. simpl. rewrite Hx.
  f_equal. apply IH, Hrest.
Qed.

Lemma CHARSETS_MAP_keys key v :
  In (key, v) CHARSETS_MAP -> is_ascii key /\ map ascii_upper_unit key = key.
Proof.
  unfold CHARSETS_MAP. simpl.
  intros [H|[H|[H|[H|[]]]]]; injection H as <- <-;
    (split; [unfold is_ascii; repeat constructor; vm_compute; discriminate
            | reflexivity]).
Qed.

Lemma decoder_name_known (name key canonical : jsstring) :
  In (key, canonical) CHARSETS_MAP -> toUpperCase name = key ->
  decoder_name name = canonical.
Proof.
  intros Hin Hup. rewrite decoder_name_spec, Hup.
  now rewrite (get_property_CHARSETS_MAP_In _ _ Hin).
Qed.

Lemma decoder_name_ci (name key canonical : jsstring) :
  In (key, canonical) CHARSETS_MAP -> ci_eq name key ->
  decoder_name name = canonical.
Proof.
  intros Hin Hci. apply (decoder_name_known _ key); [exact Hin|].
  destruct (CHARSETS_MAP_keys _ _ Hin) as [Ha Hk].
  rewrite (ci_eq_toUpperCase _ _ Ha Hci). exact Hk.
Qed.

Lemma decoder_name_raw (name : jsstring) :
  (forall key canonical, In (key, canonical) CHARSETS_MAP ->
                         toUpperCase name <> key) ->
  decoder_name name = name.
Proof.
  intros H. rewrite decoder_name_spec.
  destruct (get_property CHARSETS_MAP (toUpperCase name)) as [v|] eqn:E;
    [|reflexivity].
  apply get_property_CHARSETS_MAP in E as [Hin _].
  exfalso. exact (H _ _ Hin eq_refl).
Qed.

(** An inherited property name has a lower-case letter, which folding
    never leaves: the lookup sees own properties only. *)
Lemma toUpperCase_no_lower (charset : jsstring) :
  has_lower (toUpperCase charset) = false.
Proof.
  unfold has_lower, toUpperCase.
  apply not_true_is_false. intros H.
  apply existsb_exists in H as [u [Hu Hlow]].
  apply in_flat_map in Hu as [c [_ Hu]].
  apply (upper_units_no_lower c u Hu). bool_hyps. lia.
Qed.

Lemma toUpperCase_not_inherited (charset : jsstring) :
  ~ In (toUpperCase charset) Object_prototype_keys.
Proof.
  pose proof (toUpperCase_no_lower charset) as Hup.
  intros Hin. unfold Object_prototype_keys in Hin. simpl in Hin.
  repeat (destruct Hin as [Hin|Hin];
          [rewrite <- Hin in Hup; vm_compute in Hup; discriminate|]).
  exact Hin.
Qed.

(** ** The deserializer *)

Lemma TEXT_DESERIALIZER_charset data ctype charset :
  charset_of ctype = Some charset ->
  TEXT_DESERIALIZER data ctype
  = text_outcome (Buffer.toString data (decoder_name charset)).
Proof.
  intros H. unfold TEXT_DESERIALIZER, decode_text. rewrite H.
  destruct (Buffer.toString data (decoder_name charset)); reflexivity.
Qed.

Lemma toString_utf8 (data : Buffer.t) :
  Buffer.toString data (lit "utf8") = inr (Buffer.utf8Slice data).
Proof. destruct data; reflexivity. Qed.

Lemma toString_unknown (data : Buffer.t) (name : jsstring) :
  data <> [] -> Buffer.getEncodingOps name = None ->
  Buffer.toString data name = inl (mkError (lit "Unknown encoding: " ++ name)).
Proof.
  intros Hd Hn. destruct data; [contradiction|].
  unfold Buffer.toString. now rewrite Hn.
Qed.

(** ** TEXT_DESERIALIZER: what the specification states *)

(** C1: the bytes 63 61 66 C3 A9 are the UTF-8 form of the string "café",
    and [TEXT_DESERIALIZER] applied to them with the content type
    [text/plain; charset=UTF-8] returns the parsed entity whose [text] is
    "café". *)
Theorem text_deserializer_decodes_cafe :
  map Buffer.octet cafe_utf8 = utf8_encode cafe /\
  TEXT_DESERIALIZER cafe_utf8 (lit "text/plain; charset=UTF-8")
  = Normal (object_literal [("text"%string, JStr cafe)]).
Proof. split; vm_compute; reflexivity. Qed.

(** C2, as stated, fails on the empty buffer: [toString] answers an empty
    range with the empty string before it looks the encoding up, so the
    deserializer returns an entity with an empty text and raises
    nothing. *)
Lemma bogus_charset_empty_buffer :
  Buffer.toString [] (lit "BOGUS") = inr [] /\
  TEXT_DESERIALIZER [] (lit "text/plain; charset=BOGUS")
  = Normal (object_literal [("text"%string, JStr [])]).
Proof. split; vm_compute; reflexivity. Qed.

(** C2, amended: for every non-empty buffer, the decoder rejects the name
    BOGUS with an error, and [TEXT_DESERIALIZER] with the content type
    [text/plain; charset=BOGUS] raises a response of status 415 whose
    entity has [errorCode] "X2-415" and, for [errorMessage], the message of
    that error. *)
Theorem bogus_charset_raises_415 (data : Buffer.t) :
  (0 < length data)%nat ->
  exists err,
    Buffer.toString data (lit "BOGUS") = inl err /\
    message err = lit "Unknown encoding: BOGUS" /\
    TEXT_DESERIALIZER data (lit "text/plain; charset=BOGUS")
    = Throw (ThrownResponse
        (mkResponse 415 ∅
           (object_literal [("errorCode"%string, JStr (lit "X2-415"));
                            ("errorMessage"%string, JStr (message err))])
           false)).
Proof.
  intros Hlen. exists (mkError (lit "Unknown encoding: BOGUS")).
  assert (Hd : data <> []) by (destruct data; [simpl in Hlen; lia | discriminate]).
  assert (Hdec : Buffer.toString data (lit "BOGUS")
                 = inl (mkError (lit "Unknown encoding: BOGUS")))
    by (apply (toString_unknown data (lit "BOGUS") Hd); reflexivity).
  split; [exact Hdec|]. split; [reflexivity|].
  rewrite (TEXT_DESERIALIZER_charset _ _ (lit "BOGUS")) by reflexivity.
  change (decoder_name (lit "BOGUS")) with (lit "BOGUS").
  rewrite Hdec. reflexivity.
Qed.

Lemma bogus_charset_raises_415_witness :
  (0 < length cafe_utf8)%nat /\
  exists err,
    Buffer.toString cafe_utf8 (lit "BOGUS") = inl err /\
    message err = lit "Unknown encoding: BOGUS" /\
    TEXT_DESERIALIZER cafe_utf8 (lit "text/plain; charset=BOGUS")
    = Throw (ThrownResponse
        (mkResponse 415 ∅
           (object_literal [("errorCode"%string, JStr (lit "X2-415"));
                            ("errorMessage"%string, JStr (message err))])
           false)).
Proof.
  split; [simpl; lia | apply (bogus_charset_raises_415 cafe_utf8); simpl; lia].
Defined.

(** C9: when the charset pattern does not match the content-type header,
    [TEXT_DESERIALIZER] decodes the bytes as UTF-8, whatever the buffer. *)
Theorem no_charset_decodes_utf8 (data : Buffer.t) (ctype : jsstring) :
  charset_match ctype = None ->
  TEXT_DESERIALIZER data ctype
  = Normal (object_literal [("text"%string, JStr (Buffer.utf8Slice data))]).
Proof.
  intros Hm.
  rewrite (TEXT_DESERIALIZER_charset _ _ (lit "UTF-8"))
    by (unfold charset_of; now rewrite Hm).
  change (decoder_name (lit "UTF-8")) with (lit "utf8").
  now rewrite toString_utf8.
Qed.

Lemma no_charset_decodes_utf8_witness :
  charset_match (lit "text/plain") = None /\
  TEXT_DESERIALIZER cafe_utf8 (lit "text/plain")
  = Normal (object_literal [("text"%string, JStr (Buffer.utf8Slice cafe_utf8))]).
Proof.
  split; [vm_compute; reflexivity
         | apply (no_charset_decodes_utf8 cafe_utf8 (lit "text/plain"));
           vm_compute; reflexivity].
Defined.

(** C3, as stated for every header, fails.  The pattern is searched for
    anywhere in the header, so a lead-in inside the quoted value of
    another parameter is taken for the charset parameter; and a bare name
    runs to the next semicolon untrimmed.  In the first header below the
    charset parameter is [charset=utf-8], yet the name extracted is
    [hex] with a quote behind it; in the second the parameter is again
    [charset=utf-8], yet the name extracted is [utf-8] with a space
    behind it.  Neither name is in the table, each reaches the decoder as
    it is, and the UTF-8 body is refused. *)
Lemma charset_parameter_not_always_extracted :
  let inside := lit "text/plain; x=" ++ quote :: lit "; charset=hex"
                ++ quote :: lit "; charset=utf-8" in
  let spaced := lit "text/plain; charset=utf-8 ; format=flowed" in
  charset_of inside = Some (lit "hex" ++ [quote]) /\
  decoder_name (lit "hex" ++ [quote]) = lit "hex" ++ [quote] /\
  TEXT_DESERIALIZER cafe_utf8 inside
  = Throw (ThrownResponse
             (unsupported_media_type
                (lit "Unknown encoding: hex" ++ [quote]))) /\
  charset_of spaced = Some (lit "utf-8 ") /\
  decoder_name (lit "utf-8 ") = lit "utf-8 " /\
  TEXT_DESERIALIZER cafe_utf8 spaced
  = Throw (ThrownResponse
             (unsupported_media_type (lit "Unknown encoding: utf-8 "))).
Proof. repeat split; vm_compute; reflexivity. Qed.

(** C3, amended: let the lead-in of a charset parameter (a semicolon,
    optional white space, the keyword [charset=] in any case) not occur in
    [pre], and let the header go on with such a lead-in and a non-empty
    name.  Then the name is extracted when it is written between quotes
    (the name free of quotes, anything after the closing quote), and when
    it is written bare (the name not beginning with a quote and free of
    semicolons) and followed at once by the end of the header or by a
    semicolon.  The name is looked up in [CHARSETS_MAP] after
    [toUpperCase], so without regard to ASCII case, and the table's value
    is the decoder name; a name the table lacks is handed to the decoder
    as it is.  For every header, of these forms or not, the deserializer's
    result is what the decoder makes of the bytes under the name it
    extracted, so resolved. *)
Theorem charset_parameter_resolved
        (pre ws kw name post : jsstring) (data : Buffer.t) :
  lead_in_free pre ->
  Forall (fun c => RegExp.is_space c = true) ws ->
  ci_eq kw (lit "charset=") ->
  name <> [] ->
  let quoted := pre ++ semicolon :: ws ++ kw ++ quote :: name ++ quote :: post in
  let bare := pre ++ semicolon :: ws ++ kw ++ name in
  let bare_then := pre ++ semicolon :: ws ++ kw ++ name ++ semicolon :: post in
  let decoded :=
    text_outcome (Buffer.toString data (decoder_name name)) in
  (Forall (fun c => c <> quote) name ->
   charset_of quoted = Some name /\
   TEXT_DESERIALIZER data quoted = decoded) /\
  (match name with [] => True | c :: _ => c <> quote end ->
   Forall (fun c => c <> semicolon) name ->
   charset_of bare = Some name /\
   charset_of bare_then = Some name /\
   TEXT_DESERIALIZER data bare = decoded /\
   TEXT_DESERIALIZER data bare_then = decoded) /\
  (forall key canonical,
      In (key, canonical) CHARSETS_MAP ->
      ci_eq name key \/ toUpperCase name = key ->
      decoder_name name = canonical) /\
  ((forall key canonical,
       In (key, canonical) CHARSETS_MAP -> toUpperCase name <> key) ->
   decoder_name name = name) /\
  (forall ctype, exists charset,
      charset <> [] /\
      charset_of ctype = Some charset /\
      TEXT_DESERIALIZER data ctype
      = text_outcome (Buffer.toString data (decoder_name charset))).
Proof.
  intros Hpre Hws Hkw Hne quoted bare bare_then decoded.
  split; [|split; [|split; [|split]]].
  - intros Hq.
    assert (H1 : charset_of quoted = Some name)
      by (apply charset_of_quoted; assumption).
    split; [exact H1 | now apply TEXT_DESERIALIZER_charset].
  - intros Hc Hs.
    assert (Hs' : Forall (fun c => c <> semicolon) (tail name))
      by (destruct name as [|c n']; [constructor | now inversion Hs]).
    assert (H2 : charset_of bare = Some name).
    { unfold bare. rewrite <- (app_nil_r name) at 1.
      apply charset_of_unquoted; try assumption. exact I. }
    assert (H3 : charset_of bare_then = Some name).
    { apply charset_of_unquoted; try assumption. reflexivity. }
    split; [exact H2|]. split; [exact H3|].
    split; now apply TEXT_DESERIALIZER_charset.
  - intros key canonical Hin [Hci|Hup].
    + exact (decoder_name_ci _ _ _ Hin Hci).
    + exact (decoder_name_known _ _ _ Hin Hup).
  - apply decoder_name_raw.
  - intros ctype. destruct (charset_of_defined ctype) as (cs & Hcs & Hof).
    exists cs. split; [exact Hcs|]. split; [exact Hof|].
    now apply TEXT_DESERIALIZER_charset.
Qed.

Lemma charset_parameter_resolved_witness :
  charset_of (lit "text/plain; format=flowed; CharSet=" ++ quote :: lit "utf-8"
              ++ quote :: lit " x=y")
  = Some (lit "utf-8") /\
  charset_of (lit "text/plain; format=flowed; CharSet=utf-8")
  = Some (lit "utf-8") /\
  decoder_name (lit "utf-8") = lit "utf8" /\
  TEXT_DESERIALIZER cafe_utf8 (lit "text/plain; format=flowed; CharSet=utf-8")
  = Normal (object_literal [("text"%string, JStr cafe)]).
Proof.
  destruct (charset_parameter_resolved
              (lit "text/plain; format=flowed") [0x20] (lit "CharSet=")
              (lit "utf-8") (lit " x=y") cafe_utf8)
    as [Hquoted [Hbare [Hmap _]]].
  - vm_compute; reflexivity.
  - compute_done.
  - reflexivity.
  - discriminate.
  - destruct Hquoted as [Hq _]; [compute_done|].
    destruct Hbare as [Hb [_ [Hdes _]]]; [discriminate | compute_done |].
    split; [exact Hq|]. split; [exact Hb|]. split.
    + apply (Hmap (lit "UTF-8")); [simpl; tauto | left; reflexivity].
    + change (lit "text/plain; format=flowed; CharSet=utf-8")
        with (lit "text/plain; format=flowed" ++ semicolon :: [0x20]
              ++ lit "CharSet=" ++ lit "utf-8").
      rewrite Hdes.
      rewrite (Hmap (lit "UTF-8") (lit "utf8")) by
        first [ simpl; tauto | left; reflexivity ].
      reflexivity.
Defined.

(** ** TEXT_DESERIALIZER: further properties *)

Lemma toString_known (data : Buffer.t) (name : jsstring) (e : Buffer.encoding) :
  Buffer.getEncodingOps name = Some e ->
  Buffer.toString data name = inr (Buffer.slice e data).
Proof.
  intros H. destruct data as [|b data]; [destruct e; reflexivity|].
  unfold Buffer.toString. now rewrite H.
Qed.

Lemma toString_error (data : Buffer.t) (name : jsstring) (err : JsError) :
  Buffer.toString data name = inl err ->
  data <> [] /\ Buffer.getEncodingOps name = None /\
  message err = lit "Unknown encoding: " ++ name.
Proof.
  unfold Buffer.toString. destruct data as [|b data]; [discriminate|].
  destruct (Buffer.getEncodingOps name); [discriminate|].
  intros [= <-]. repeat split. discriminate.
Qed.

(** The names of the table, in any ASCII case, are free of quotes and
    semicolons. *)
Lemma known_name_plain (name key canonical : jsstring) :
  In (key, canonical) CHARSETS_MAP -> ci_eq name key ->
  name <> [] /\
  Forall (fun c => c <> quote) name /\
  Forall (fun c => c <> semicolon) name.
Proof.
  intros Hin Hci. split; [|split].
  - intros ->. unfold CHARSETS_MAP in Hin. simpl in Hin.
    destruct Hin as [H|[H|[H|[H|[]]]]]; injection H as <- _; discriminate Hci.
  - apply (ci_eq_avoids quote _ _ eq_refl Hci).
    unfold CHARSETS_MAP in Hin. simpl in Hin.
    destruct Hin as [H|[H|[H|[H|[]]]]]; injection H as <- _;
      repeat constructor; vm_compute; discriminate.
  - apply (ci_eq_avoids semicolon _ _ eq_refl Hci).
    unfold CHARSETS_MAP in Hin. simpl in Hin.
    destruct Hin as [H|[H|[H|[H|[]]]]]; injection H as <- _;
      repeat constructor; vm_compute; discriminate.
Qed.

(** X1: [TEXT_DESERIALIZER] has two outcomes only, for every buffer and
    every header: it returns an entity with the one property [text], or it
    throws a [ServiceResponse] of status 415 with the entity
    [{errorCode: "X2-415", errorMessage}].  No other failure leaves it. *)
Theorem text_deserializer_outcomes (data : Buffer.t) (ctype : jsstring) :
  (exists text,
      TEXT_DESERIALIZER data ctype
      = Normal (object_literal [("text"%string, JStr text)])) \/
  (exists msg,
      TEXT_DESERIALIZER data ctype
      = Throw (ThrownResponse (unsupported_media_type msg)) /\
      statusCode (unsupported_media_type msg) = 415).
Proof.
  destruct (charset_of_defined ctype) as (cs & _ & Hcs).
  rewrite (TEXT_DESERIALIZER_charset _ _ _ Hcs).
  destruct (Buffer.toString data (decoder_name cs)) as [err|text].
  - right. exists (message err). split; reflexivity.
  - left. now exists text.
Qed.

(** X2: the only failure the [catch] clause of [TEXT_DESERIALIZER] ever
    sees is the decoder's complaint about an unknown encoding, on a
    non-empty buffer: the charset expression is never [undefined], so the
    call of [toUpperCase] cannot fail.  The [errorMessage] is therefore
    always "Unknown encoding: " followed by the name as it stands in the
    header. *)
Theorem caught_error_is_unknown_encoding
        (data : Buffer.t) (ctype : jsstring) (err : JsError) :
  decode_text data ctype = inl err ->
  exists charset,
    charset_of ctype = Some charset /\
    decoder_name charset = charset /\
    Buffer.getEncodingOps charset = None /\
    data <> [] /\
    message err = lit "Unknown encoding: " ++ charset.
Proof.
  unfold decode_text.
  destruct (charset_of_defined ctype) as (cs & _ & Hcs). rewrite Hcs.
  destruct (Buffer.toString data (decoder_name cs)) as [e|text] eqn:E;
    [|discriminate].
  intros [= <-]. apply toString_error in E as (Hd & Hn & Hm).
  assert (Hraw : decoder_name cs = cs).
  { rewrite decoder_name_spec in *.
    destruct (get_property CHARSETS_MAP (toUpperCase cs)) as [v|] eqn:Ev;
      [|reflexivity].
    apply get_property_CHARSETS_MAP in Ev as [Hin _].
    unfold CHARSETS_MAP in Hin. simpl in Hin.
    destruct Hin as [H|[H|[H|[H|[]]]]]; injection H as _ <-; discriminate Hn. }
  rewrite Hraw in Hn, Hm. now exists cs.
Qed.

Lemma caught_error_is_unknown_encoding_witness :
  exists charset,
    charset_of (lit "text/plain; charset=BOGUS") = Some charset /\
    message (mkError (lit "Unknown encoding: BOGUS"))
    = lit "Unknown encoding: " ++ charset.
Proof.
  destruct (caught_error_is_unknown_encoding
              cafe_utf8 (lit "text/plain; charset=BOGUS")
              (mkError (lit "Unknown encoding: BOGUS")))
    as (cs & Hcs & _ & _ & _ & Hm); [vm_compute; reflexivity|].
  now exists cs.
Defined.

(** X3: the key [TEXT_DESERIALIZER] reads from [CHARSETS_MAP] is never the
    name of a property inherited from [Object.prototype]: an upper-cased
    string has no lower-case ASCII letter, and each inherited name has
    one.  The lookup therefore answers from the four own properties or
    not at all. *)
Theorem inherited_property_never_read (charset : jsstring) :
  has_lower (toUpperCase charset) = false /\
  Forall (fun key => has_lower key = true /\ toUpperCase charset <> key)
         Object_prototype_keys.
Proof.
  pose proof (toUpperCase_no_lower charset) as Hup.
  split; [exact Hup|].
  apply Forall_forall. intros key Hkey.
  assert (Hlow : has_lower key = true).
  { apply list_elem_of_In in Hkey. unfold Object_prototype_keys in Hkey.
    simpl in Hkey.
    repeat (destruct Hkey as [<-|Hkey]; [vm_compute; reflexivity|]).
    destruct Hkey. }
  split; [exact Hlow|]. intros Heq. rewrite Heq in Hup. congruence.
Qed.

(** X5: a header in which no semicolon is followed, after optional white
    space, by the keyword [charset=] (in any case) has no charset
    parameter, and [TEXT_DESERIALIZER] decodes the bytes as UTF-8. *)
Theorem lead_in_free_decodes_utf8 (data : Buffer.t) (ctype : jsstring) :
  lead_in_free ctype ->
  charset_match ctype = None /\
  TEXT_DESERIALIZER data ctype
  = Normal (object_literal [("text"%string, JStr (Buffer.utf8Slice data))]).
Proof.
  intros H. pose proof (lead_in_free_no_match ctype H) as Hm.
  split; [exact Hm|].
  rewrite (TEXT_DESERIALIZER_charset _ _ (lit "UTF-8"))
    by (unfold charset_of; now rewrite Hm).
  change (decoder_name (lit "UTF-8")) with (lit "utf8").
  now rewrite toString_utf8.
Qed.

Lemma lead_in_free_decodes_utf8_witness :
  TEXT_DESERIALIZER cafe_utf8 (lit "text/plain; format=flowed")
  = Normal (object_literal [("text"%string, JStr cafe)]).
Proof.
  destruct (lead_in_free_decodes_utf8 cafe_utf8 (lit "text/plain; format=flowed"))
    as [_ H]; [vm_compute; reflexivity|].
  exact H.
Defined.

(** ** createResponse and isResponse *)

Lemma proto_eqb_eq (p q : proto) : proto_eqb p q = true <-> p = q.
Proof.
  destruct p, q; simpl; try (split; [discriminate | congruence]);
    try (split; reflexivity).
  rewrite String.eqb_eq. split; congruence.
Qed.

Lemma instanceof_is_instance (v : jsvalue) (p : proto) :
  instanceof v p = true <-> is_instance v p.
Proof.
  unfold is_instance. split.
  - destruct v as [| | | | |chain props]; try discriminate. simpl.
    intros H. apply existsb_exists in H as [q [Hq Heq]].
    apply proto_eqb_eq in Heq as <-. now exists chain, props.
  - intros (chain & props & -> & Hin). simpl.
    apply existsb_exists. exists p. split; [exact Hin|].
    now apply proto_eqb_eq.
Qed.

Lemma apply_op_statusCode (r r' : ServiceResponse) (o : response_op) :
  apply_op r o = Normal r' -> statusCode r' = statusCode r.
Proof.
  destruct o; simpl; unfold setHeader, setEntity;
    try destruct (committed r); intros H; try discriminate;
    injection H as <-; reflexivity.
Qed.

Lemma apply_ops_statusCode (os : list response_op) (r : ServiceResponse) :
  statusCode (apply_ops r os) = statusCode r.
Proof.
  revert r. induction os as [|o os IH]; intros r; [reflexivity|].
  simpl. destruct (apply_op r o) as [r'|] eqn:E.
  - rewrite IH. exact (apply_op_statusCode _ _ _ E).
  - apply IH.
Qed.

(** C5: [createResponse] constructs a response exactly when its argument
    is a number from 100 to 599; the response's status code is then that
    number, and it stays that number under every later run of operations
    on the response (setting headers, setting the entity, committing). *)
Theorem createResponse_status (code : jsvalue) (ops : list response_op) :
  match createResponse code with
  | Normal r =>
      exists n, code = JNum n /\ 100 <= n <= 599 /\
                statusCode r = n /\ statusCode (apply_ops r ops) = n
  | Throw _ => forall n, code = JNum n -> ~ (100 <= n <= 599)
  end.
Proof.
  unfold createResponse, ServiceResponse_new.
  destruct code as [| | |n| |]; try (intros n' H; discriminate).
  case_if; bool_hyps.
  - exists n. rewrite apply_ops_statusCode. simpl. repeat split; lia.
  - intros n' [= <-]. lia.
  - intros n' [= <-]. lia.
Qed.

(** C10: for a valid status code [n], [isResponse] is true of the
    response [createResponse] makes; and [isResponse] is true of a value
    only if the value is an object with [ServiceResponse.prototype] on its
    prototype chain, so it is false of every other value, among them
    [null], [undefined] and every object literal, whatever its
    properties. *)
Theorem isResponse_instances (n : Z) (v : jsvalue) :
  100 <= n <= 599 ->
  (exists r, createResponse (JNum n) = Normal r /\
             isResponse (response_value r) = true) /\
  (isResponse v = true <-> is_instance v ServiceResponse_prototype) /\
  (~ is_instance v ServiceResponse_prototype -> isResponse v = false) /\
  isResponse JNull = false /\
  isResponse JUndefined = false /\
  (forall props, isResponse (object_literal props) = false).
Proof.
  intros Hn. split; [|split; [|split]].
  - unfold createResponse, ServiceResponse_new.
    replace ((100 <=? n) && (n <=? 599)) with true
      by (symmetry; apply andb_true_iff; split; apply Z.leb_le; lia).
    eexists. split; reflexivity.
  - apply instanceof_is_instance.
  - intros Hno. apply not_true_is_false. intros Ht.
    apply Hno, instanceof_is_instance, Ht.
  - repeat split; reflexivity.
Qed.

Lemma isResponse_instances_witness :
  (exists r, createResponse (JNum 200) = Normal r /\
             isResponse (response_value r) = true) /\
  isResponse (object_literal [("status"%string, JNum 200);
                              ("headers"%string, object_literal []);
                              ("entity"%string, JNull)]) = false.
Proof.
  destruct (isResponse_instances 200
              (object_literal [("status"%string, JNum 200);
                               ("headers"%string, object_literal []);
                               ("entity"%string, JNull)]))
    as [Hnew [_ [_ [_ [_ Hlit]]]]]; [lia|].
  split; [exact Hnew | apply Hlit].
Defined.

(** ** The pipeline: a raised response wins *)

Lemma run_stages_throw (pre post : list stage) (s : stage)
      (ctx ctx' : RequestContext) (tr tr_s : list event) (t : thrown) :
  run_stages pre ctx = (tr, Normal ctx') ->
  s ctx' = (tr_s, Throw t) ->
  run_stages (pre ++ s :: post) ctx = (tr ++ tr_s, Throw t).
Proof.
  revert ctx tr. induction pre as [|p pre IH]; intros ctx tr Hpre Hs; simpl in *.
  - injection Hpre as <- <-. now rewrite Hs.
  - destruct (p ctx) as [tr0 [ctx0|t0]]; [|discriminate].
    destruct (run_stages pre ctx0) as [tr1 res1] eqn:E.
    injection Hpre as <- ->.
    rewrite (IH ctx0 tr1 E Hs). now rewrite app_assoc.
Qed.

(** C4: let a stage of the pipeline (the deserializer, the authenticator
    chain or the handler) throw after the stages before it have passed.
    If it throws a response, the outcome holds the invocations made up to
    the throw and nothing later, and the wire carries that response's
    status and entity; if it throws anything else, the wire carries the
    generic 500 response, the same for every failure, and the failure goes
    to the diagnostics.  In both cases the outcome is the same whatever
    the later stages are. *)
Theorem raised_response_wins
        (h : HandlerRegistration) (ctx ctx' : RequestContext)
        (pre post : list stage) (s : stage)
        (tr tr_s : list event) (t : thrown) :
  stages h = pre ++ s :: post ->
  run_stages pre ctx = (tr, Normal ctx') ->
  s ctx' = (tr_s, Throw t) ->
  invoked (process h ctx) = tr ++ tr_s /\
  match t with
  | ThrownResponse r =>
      statusCode (wire (process h ctx)) = statusCode r /\
      entity (wire (process h ctx)) = entity r /\
      headers (wire (process h ctx)) = headers r /\
      diagnostics (process h ctx) = []
  | ThrownError e =>
      wire (process h ctx) = commit generic_500 /\
      statusCode (wire (process h ctx)) = 500 /\
      diagnostics (process h ctx) = [e]
  end /\
  forall later, process_stages (pre ++ s :: later) ctx = process h ctx.
Proof.
  intros Hst Hpre Hs.
  assert (Hany : forall later,
             process_stages (pre ++ s :: later) ctx = emit (tr ++ tr_s) (Throw t)).
  { intros later. unfold process_stages.
    now rewrite (run_stages_throw pre later s ctx ctx' tr tr_s t Hpre Hs). }
  assert (Hp : process h ctx = emit (tr ++ tr_s) (Throw t))
    by (unfold process; rewrite Hst; apply Hany).
  rewrite Hp. split; [|split].
  - destruct t; reflexivity.
  - destruct t; simpl; repeat split; reflexivity.
  - exact Hany.
Qed.

Lemma raised_response_wins_witness :
  let h := mkHandler TEXT_DESERIALIZER []
                     (fun _ => createResponse (JNum 200)) in
  let ctx := mkContext cafe_utf8 (lit "text/plain; charset=BOGUS")
                       None None None None in
  invoked (process h ctx) = [RanDeserializer] /\
  statusCode (wire (process h ctx)) = 415 /\
  entity (wire (process h ctx))
  = entity (unsupported_media_type (lit "Unknown encoding: BOGUS")).
Proof.
  intros h ctx.
  destruct (raised_response_wins h ctx ctx [] [authenticator_stage h; handler_stage h]
              (deserializer_stage h) [] [RanDeserializer]
              (ThrownResponse
                 (unsupported_media_type (lit "Unknown encoding: BOGUS"))))
    as [Hinv [[Hst [Hent _]] _]];
    [reflexivity | reflexivity | vm_compute; reflexivity |].
  split; [exact Hinv|]. split; [exact Hst | exact Hent].
Defined.

(** ** The authenticator chain *)

Lemma attempt_not_applicable (a : Authenticator) (ctx : RequestContext) :
  credentials a ctx = None -> attemptAuthenticate a ctx = Normal None.
Proof. intros H. unfold attemptAuthenticate. now rewrite H. Qed.

Lemma authenticate_all_not_applicable
      (auths : list Authenticator) (i : nat) (ctx : RequestContext) :
  Forall (fun b => attemptAuthenticate b ctx = Normal None) auths ->
  authenticate auths i ctx
  = (map RanAuthenticator (seq i (length auths)), Normal None).
Proof.
  intros H. revert i. induction H as [|b l Hb _ IH]; intros i; simpl.
  - reflexivity.
  - rewrite Hb, IH. reflexivity.
Qed.

Lemma authenticate_first_resolved
      (pre post : list Authenticator) (a : Authenticator) (i : nat)
      (ctx : RequestContext) (who : Actor) :
  Forall (fun b => attemptAuthenticate b ctx = Normal None) pre ->
  attemptAuthenticate a ctx = Normal (Some who) ->
  authenticate (pre ++ a :: post) i ctx
  = (map RanAuthenticator (seq i (S (length pre))), Normal (Some who)).
Proof.
  intros H Ha. revert i. induction H as [|b l Hb _ IH]; intros i; simpl.
  - rewrite Ha. reflexivity.
  - rewrite Hb, IH. reflexivity.
Qed.

(** C8: an authenticator that finds its credential form absent answers
    not-applicable.  When the authenticators before one answer so and
    that one resolves an actor, the chain has run exactly those
    authenticators, in order, and none after, and the actor is the
    request's; a chain whose authenticators all answer not-applicable has
    run them all and leaves the request anonymous, the stage passing. *)
Theorem chain_first_resolved_wins
        (h : HandlerRegistration) (pre post : list Authenticator)
        (a : Authenticator) (ctx : RequestContext) (who : Actor) :
  Forall (fun b => credentials b ctx = None) pre ->
  attemptAuthenticate a ctx = Normal (Some who) ->
  Forall (fun b => attemptAuthenticate b ctx = Normal None) pre /\
  authenticate (pre ++ a :: post) 0 ctx
  = (map RanAuthenticator (seq 0 (S (length pre))), Normal (Some who)) /\
  (authenticators h = pre ++ a :: post ->
   exists ctx',
     authenticator_stage h ctx
     = (map RanAuthenticator (seq 0 (S (length pre))), Normal ctx') /\
     actor ctx' = Some who) /\
  authenticate pre 0 ctx
  = (map RanAuthenticator (seq 0 (length pre)), Normal None) /\
  (authenticators h = pre ->
   exists ctx',
     authenticator_stage h ctx
     = (map RanAuthenticator (seq 0 (length pre)), Normal ctx') /\
     actor ctx' = None).
Proof.
  intros Hpre Ha.
  assert (Hna : Forall (fun b => attemptAuthenticate b ctx = Normal None) pre)
    by (eapply Forall_impl; [exact Hpre | intros b; apply attempt_not_applicable]).
  pose proof (authenticate_first_resolved pre post a 0 ctx who Hna Ha) as Hres.
  pose proof (authenticate_all_not_applicable pre 0 ctx Hna) as Hall.
  split; [exact Hna|]. split; [exact Hres|]. split; [|split; [exact Hall|]].
  - intros Hh. unfold authenticator_stage. rewrite Hh, Hres.
    eexists. split; reflexivity.
  - intros Hh. unfold authenticator_stage. rewrite Hh, Hall.
    eexists. split; reflexivity.
Qed.

Lemma chain_first_resolved_wins_witness :
  let alice := mkActor "alice" in
  let basic := BasicAuthenticator (fun _ => Normal (mkActor "bob")) in
  let bearer := BearerAuthenticator (fun _ => Normal alice) in
  let ctx := mkContext [] (lit "text/plain") (Some "Bearer t0k3n"%string)
                       None None None in
  authenticate [basic; bearer; basic] 0 ctx
  = ([RanAuthenticator 0; RanAuthenticator 1], Normal (Some alice)).
Proof.
  intros alice basic bearer ctx.
  destruct (chain_first_resolved_wins
              (mkHandler TEXT_DESERIALIZER [basic; bearer; basic]
                         (fun _ => createResponse (JNum 200)))
              [basic] [basic] bearer ctx alice)
    as [_ [Hres _]]; [compute_done | reflexivity |].
  exact Hres.
Defined.

(** ** CachingActorsRegistry: expiration and single flight *)

Module RegistryFacts.
Import CachingActorsRegistry.

Lemma cached_fresh (r : t) (key : string) (now : Z) (e : CacheEntry) :
  cached r key now = Some e -> cache r !! key = Some e /\ now < expiresAt e.
Proof.
  unfold cached, fresh. destruct (cache r !! key) as [e'|]; [|discriminate].
  destruct (Z.ltb_spec now (expiresAt e')); [|discriminate].
  intros [= <-]. now split.
Qed.

Lemma calls_of_app key (a b : list effect) :
  calls_of key (a ++ b) = (calls_of key a + calls_of key b)%nat.
Proof. unfold calls_of. now rewrite omap_app, length_app. Qed.

Lemma deliveries_of_app key (a b : list effect) :
  deliveries_of key (a ++ b) = deliveries_of key a ++ deliveries_of key b.
Proof. unfold deliveries_of. now rewrite omap_app. Qed.

Lemma deliveries_of_other key k' v (ws : list nat) :
  k' <> key -> deliveries_of key (map (fun c => Deliver c k' v) ws) = [].
Proof.
  intros Hne. induction ws as [|w ws IH]; [reflexivity|].
  unfold deliveries_of in *. simpl. now rewrite decide_False.
Qed.

Lemma calls_of_deliveries key k' v (ws : list nat) :
  calls_of key (map (fun c => Deliver c k' v) ws) = 0%nat.
Proof.
  induction ws as [|w ws IH]; [reflexivity|]. exact IH.
Qed.

Lemma make_room_keeps_none (r : t) (key : string) :
  cache r !! key = None -> (make_room r).1 !! key = None.
Proof.
  intros H. unfold make_room.
  destruct (maxEntries r) as [n|]; [|exact H].
  destruct (n <=? size (cache r))%nat; [|exact H].
  destruct (last (recency r)) as [old|]; [|exact H].
  simpl. rewrite lookup_delete_None. now right.
Qed.

Lemma step_other (r : t) (key : string) (i : input) :
  ~ about key i ->
  cache r !! key = None ->
  cache (step r i).1 !! key = None /\
  pending (step r i).1 !! key = pending r !! key /\
  ttl (step r i).1 = ttl r /\
  calls_of key (step r i).2 = 0%nat /\
  deliveries_of key (step r i).2 = [].
Proof.
  intros Hab Hc. destruct i as [c k now|k v now]; simpl in Hab; simpl.
  - destruct (cached r k now) as [e|]; simpl.
    + unfold calls_of, deliveries_of. simpl. rewrite decide_False by exact Hab.
      repeat split; auto.
    + destruct (pending r !! k) as [ws|]; simpl;
        unfold calls_of, deliveries_of; simpl;
        rewrite ?decide_False by exact Hab;
        rewrite lookup_insert_ne by exact Hab;
        (repeat split; auto; rewrite lookup_delete_None; now right).
  - destruct (pending r !! k) as [ws|]; simpl.
    + rewrite calls_of_deliveries, deliveries_of_other by exact Hab.
      destruct v as [rej|a]; simpl.
      * rewrite lookup_delete_ne by exact Hab. repeat split; auto.
      * unfold store. destruct (make_room r) as [c l] eqn:E. simpl.
        rewrite lookup_insert_ne, lookup_delete_ne by exact Hab.
        pose proof (make_room_keeps_none r key Hc) as Hm.
        rewrite E in Hm. repeat split; auto.
    + repeat split; auto.
Qed.

Lemma step_lookup_waiting (r : t) (key : string) (c : nat) (now : Z)
      (ws : list nat) :
  cache r !! key = None ->
  pending r !! key = Some ws ->
  cache (step r (Lookup c key now)).1 !! key = None /\
  pending (step r (Lookup c key now)).1 !! key = Some (ws ++ [c]) /\
  ttl (step r (Lookup c key now)).1 = ttl r /\
  (step r (Lookup c key now)).2 = [].
Proof.
  intros Hc Hp. simpl. unfold cached. rewrite Hc, Hp. simpl.
  rewrite lookup_insert_eq, lookup_delete_eq. repeat split; auto.
Qed.

Lemma step_lookup_first (r : t) (key : string) (c : nat) (now : Z) :
  cache r !! key = None ->
  pending r !! key = None ->
  cache (step r (Lookup c key now)).1 !! key = None /\
  pending (step r (Lookup c key now)).1 !! key = Some [c] /\
  ttl (step r (Lookup c key now)).1 = ttl r /\
  (step r (Lookup c key now)).2 = [CallVerify key].
Proof.
  intros Hc Hp. simpl. unfold cached. rewrite Hc, Hp. simpl.
  rewrite lookup_insert_eq, lookup_delete_eq. repeat split; auto.
Qed.

Lemma calls_of_call key : calls_of key [CallVerify key] = 1%nat.
Proof. unfold calls_of. simpl. now rewrite decide_True. Qed.

(** While the verification of [key] is under way, lookups of [key] only
    join the waiters. *)
Lemma run_waiting (key : string) (ins : list input) :
  forall (r : t) (ws : list nat),
    cache r !! key = None ->
    pending r !! key = Some ws ->
    unsettled key ins ->
    cache (run r ins).1 !! key = None /\
    pending (run r ins).1 !! key = Some (ws ++ lookups_of key ins) /\
    ttl (run r ins).1 = ttl r /\
    calls_of key (run r ins).2 = 0%nat /\
    deliveries_of key (run r ins).2 = [].
Proof.
  induction ins as [|i ins IH]; intros r ws Hc Hp Hu.
  - simpl. rewrite app_nil_r. repeat split; auto.
  - inversion Hu as [|? ? Hi Hu']; subst.
    cbn [run]. destruct (step r i) as [r1 out1] eqn:E1.
    destruct (run r1 ins) as [r2 out2] eqn:E2. cbn [fst snd].
    rewrite calls_of_app, deliveries_of_app.
    destruct i as [c k now|k v now].
    + cbn [lookups_of]. destruct (decide (k = key)) as [->|Hne].
      * destruct (step_lookup_waiting r key c now ws Hc Hp)
          as (Hc1 & Hp1 & Ht1 & Ho1).
        rewrite E1 in Hc1, Hp1, Ht1, Ho1. cbn [fst snd] in *. subst out1.
        destruct (IH r1 (ws ++ [c]) Hc1 Hp1 Hu') as (Hc2 & Hp2 & Ht2 & Hn2 & Hd2).
        rewrite E2 in Hc2, Hp2, Ht2, Hn2, Hd2. cbn [fst snd] in *.
        rewrite <- app_assoc in Hp2.
        repeat split; auto. congruence.
      * destruct (step_other r key (Lookup c k now) Hne Hc)
          as (Hc1 & Hp1 & Ht1 & Hn1 & Hd1).
        rewrite E1 in Hc1, Hp1, Ht1, Hn1, Hd1. cbn [fst snd] in *.
        rewrite Hp in Hp1.
        destruct (IH r1 ws Hc1 Hp1 Hu') as (Hc2 & Hp2 & Ht2 & Hn2 & Hd2).
        rewrite E2 in Hc2, Hp2, Ht2, Hn2, Hd2. cbn [fst snd] in *.
        rewrite Hn1, Hn2, Hd1, Hd2. repeat split; auto. congruence.
    + cbn [lookups_of].
      destruct (step_other r key (Settle k v now) Hi Hc)
        as (Hc1 & Hp1 & Ht1 & Hn1 & Hd1).
      rewrite E1 in Hc1, Hp1, Ht1, Hn1, Hd1. cbn [fst snd] in *.
      rewrite Hp in Hp1.
      destruct (IH r1 ws Hc1 Hp1 Hu') as (Hc2 & Hp2 & Ht2 & Hn2 & Hd2).
      rewrite E2 in Hc2, Hp2, Ht2, Hn2, Hd2. cbn [fst snd] in *.
      rewrite Hn1, Hn2, Hd1, Hd2. repeat split; auto. congruence.
Qed.

(** From a state in which [key] is neither cached nor under
    verification, the first lookup of [key] starts the one verification. *)
Lemma run_uncached (key : string) (ins : list input) :
  forall (r : t),
    cache r !! key = None ->
    pending r !! key = None ->
    unsettled key ins ->
    cache (run r ins).1 !! key = None /\
    ttl (run r ins).1 = ttl r /\
    deliveries_of key (run r ins).2 = [] /\
    match lookups_of key ins with
    | [] => pending (run r ins).1 !! key = None /\
            calls_of key (run r ins).2 = 0%nat
    | cs => pending (run r ins).1 !! key = Some cs /\
            calls_of key (run r ins).2 = 1%nat
    end.
Proof.
  induction ins as [|i ins IH]; intros r Hc Hp Hu.
  - simpl. repeat split; auto.
  - inversion Hu as [|? ? Hi Hu']; subst.
    cbn [run]. destruct (step r i) as [r1 out1] eqn:E1.
    destruct (run r1 ins) as [r2 out2] eqn:E2. cbn [fst snd].
    rewrite calls_of_app, deliveries_of_app.
    assert (Hother : ~ about key i ->
              cache r2 !! key = None /\ ttl r2 = ttl r /\
              deliveries_of key out1 ++ deliveries_of key out2 = [] /\
              match lookups_of key ins with
              | [] => pending r2 !! key = None /\
                      (calls_of key out1 + calls_of key out2)%nat = 0%nat
              | cs => pending r2 !! key = Some cs /\
                      (calls_of key out1 + calls_of key out2)%nat = 1%nat
              end).
    { intros Hab.
      destruct (step_other r key i Hab Hc) as (Hc1 & Hp1 & Ht1 & Hn1 & Hd1).
      rewrite E1 in Hc1, Hp1, Ht1, Hn1, Hd1. cbn [fst snd] in *.
      rewrite Hp in Hp1.
      destruct (IH r1 Hc1 Hp1 Hu') as (Hc2 & Ht2 & Hd2 & Hm).
      rewrite E2 in Hc2, Ht2, Hd2, Hm. cbn [fst snd] in *.
      rewrite Hn1, Hd1, Hd2. simpl.
      split; [auto|]. split; [congruence|]. split; [reflexivity|]. exact Hm. }
    destruct i as [c k now|k v now].
    + cbn [lookups_of]. destruct (decide (k = key)) as [->|Hne].
      * destruct (step_lookup_first r key c now Hc Hp)
          as (Hc1 & Hp1 & Ht1 & Ho1).
        rewrite E1 in Hc1, Hp1, Ht1, Ho1. cbn [fst snd] in *. subst out1.
        destruct (run_waiting key ins r1 [c] Hc1 Hp1 Hu')
          as (Hc2 & Hp2 & Ht2 & Hn2 & Hd2).
        rewrite E2 in Hc2, Hp2, Ht2, Hn2, Hd2. cbn [fst snd] in *.
        rewrite calls_of_call, Hn2, Hd2.
        repeat split; auto. congruence.
      * apply Hother. exact Hne.
    + cbn [lookups_of]. apply Hother. exact Hi.
Qed.

(** C6: a lookup that is answered from the cache is answered from an
    entry whose expiration time lies after the time of the lookup,
    whatever the state of the registry, the key and the time. *)
Theorem lookup_never_expired
        (r : t) (caller : nat) (key : string) (now : Z) (v : verdict) :
  In (Deliver caller key v) (step r (Lookup caller key now)).2 ->
  exists e,
    cache r !! key = Some e /\
    cached r key now = Some e /\
    v = inr (cachedActor e) /\
    now < expiresAt e.
Proof.
  cbn [step]. destruct (cached r key now) as [e|] eqn:E.
  - cbn [snd]. intros [H|[]]. injection H as <-.
    destruct (cached_fresh r key now e E) as [Hc Hf].
    exists e. repeat split; auto.
  - destruct (pending r !! key); cbn [snd]; intros H;
      [destruct H | destruct H as [H|[]]; discriminate].
Qed.

Lemma lookup_never_expired_witness :
  let alice := mkActor "alice" in
  let r := store (empty 1000 None) "k" alice 0 in
  (step r (Lookup 7 "k" 999)).2 = [Deliver 7 "k" (inr alice)] /\
  (step r (Lookup 7 "k" 1000)).2 = [CallVerify "k"] /\
  exists e, cache r !! "k" = Some e /\ 999 < expiresAt e.
Proof.
  intros alice r.
  destruct (lookup_never_expired r 7 "k" 999 (inr alice))
    as (e & Hc & _ & _ & Hf); [vm_compute; left; reflexivity|].
  split; [vm_compute; reflexivity|]. split; [vm_compute; reflexivity|].
  exists e. split; [exact Hc | exact Hf].
Defined.

(** C7: let [key] be neither cached nor under verification, and let a
    run of the event loop hold one or more lookups of [key], with
    anything about other keys in between, and no settlement of [key].
    Then the run starts exactly one verification of [key] and delivers
    nothing about it; and when that verification settles, every caller
    that looked [key] up, in order, is delivered the one verdict, the
    marker is gone, an actor is cached until the settlement time plus the
    time to live, and a rejection leaves [key] uncached. *)
Theorem single_flight
        (r : t) (key : string) (ins : list input) (callers : list nat) :
  cache r !! key = None ->
  pending r !! key = None ->
  unsettled key ins ->
  lookups_of key ins = callers ->
  callers <> [] ->
  calls_of key (run r ins).2 = 1%nat /\
  deliveries_of key (run r ins).2 = [] /\
  forall (v : verdict) (now : Z),
    (step (run r ins).1 (Settle key v now)).2
    = map (fun c => Deliver c key v) callers /\
    pending (step (run r ins).1 (Settle key v now)).1 !! key = None /\
    cache (step (run r ins).1 (Settle key v now)).1 !! key
    = match v with
      | inl _ => None
      | inr a => Some (mkEntry a (now + ttl r))
      end.
Proof.
  intros Hc Hp Hu Hl Hne.
  destruct (run_uncached key ins r Hc Hp Hu) as (Hc1 & Ht1 & Hd1 & Hm).
  rewrite Hl in Hm. destruct callers as [|c cs]; [contradiction|].
  destruct Hm as [Hp1 Hn1].
  split; [exact Hn1|]. split; [exact Hd1|].
  intros v now. cbn [step]. rewrite Hp1. cbn [fst snd].
  split; [reflexivity|].
  destruct v as [rej|a]; cbn [pending cache].
  - rewrite lookup_delete_eq. split; [reflexivity | exact Hc1].
  - unfold store. destruct (make_room (run r ins).1) as [c' l'].
    cbn [pending cache]. rewrite lookup_delete_eq, lookup_insert_eq, Ht1.
    split; reflexivity.
Qed.

Lemma single_flight_witness :
  let alice := mkActor "alice" in
  let ins := [Lookup 1 "k" 0; Lookup 9 "other" 1; Lookup 2 "k" 2;
              Settle "other" (inr (mkActor "bob")) 3; Lookup 3 "k" 4] in
  let r := empty 1000 (Some 2%nat) in
  calls_of "k" (run r ins).2 = 1%nat /\
  (step (run r ins).1 (Settle "k" (inr alice) 5)).2
  = [Deliver 1 "k" (inr alice); Deliver 2 "k" (inr alice);
     Deliver 3 "k" (inr alice)].
Proof.
  intros alice ins r.
  destruct (single_flight r "k" ins [1; 2; 3]%nat)
    as (Hcalls & _ & Hsettle);
    [reflexivity | reflexivity
    | repeat constructor; discriminate | reflexivity | discriminate |].
  destruct (Hsettle (inr alice) 5) as (Hout & _ & _).
  split; [exact Hcalls | exact Hout].
Defined.

End RegistryFacts.

(** ** index.js: further properties *)

Lemma names_charset_of (ctype name : jsstring) :
  names_charset ctype name -> plain_name name ->
  charset_of ctype = Some name.
Proof.
  intros (pre & ws & kw & post & Hpre & Hws & Hkw & Hform) [Hne Hplain].
  assert (Hq : Forall (fun c => c <> quote) name)
    by (eapply Forall_impl; [exact Hplain | intros ? [? ?]; assumption]).
  assert (Hs : Forall (fun c => c <> semicolon) (tail name)).
  { destruct name as [|c n']; [contradiction|]. simpl.
    inversion Hplain; subst.
    eapply Forall_impl; [eassumption | intros ? [? ?]; assumption]. }
  assert (Hc : match name with [] => True | c :: _ => c <> quote end).
  { destruct name as [|c n']; [exact I|]. inversion Hq; assumption. }
  destruct Hform as [->|[->| ->]].
  - rewrite <- (app_nil_r name) at 1.
    apply charset_of_unquoted; try assumption. exact I.
  - apply charset_of_unquoted; try assumption. reflexivity.
  - apply charset_of_quoted; assumption.
Qed.

Lemma known_name_is_plain (name key canonical : jsstring) :
  In (key, canonical) CHARSETS_MAP -> ci_eq name key -> plain_name name.
Proof.
  intros Hin Hci. destruct (known_name_plain _ _ _ Hin Hci) as (Hne & Hq & Hs).
  split; [exact Hne|]. apply Forall_forall. intros c Hc.
  rewrite Forall_forall in Hq, Hs. split; [apply Hq | apply Hs]; exact Hc.
Qed.

Lemma toString_empty (name : jsstring) : Buffer.toString [] name = inr [].
Proof. reflexivity. Qed.

(** X7: an empty body is never refused: for every content-type header,
    whatever charset it names, [TEXT_DESERIALIZER] applied to the empty
    buffer returns the entity with the empty text. *)
Theorem empty_body_never_refused (ctype : jsstring) :
  TEXT_DESERIALIZER [] ctype
  = Normal (object_literal [("text"%string, JStr [])]).
Proof.
  destruct (charset_of_defined ctype) as (cs & _ & Hcs).
  now rewrite (TEXT_DESERIALIZER_charset _ _ _ Hcs), toString_empty.
Qed.

(** X8: [isResponse] tells the two outcomes of [TEXT_DESERIALIZER] apart:
    it is false of every entity the deserializer returns, and true of
    every value the deserializer throws, which is a response of status
    415. *)
Theorem isResponse_tells_outcomes_apart (data : Buffer.t) (ctype : jsstring) :
  match TEXT_DESERIALIZER data ctype with
  | Normal parsed => isResponse parsed = false
  | Throw (ThrownResponse r) =>
      isResponse (response_value r) = true /\ statusCode r = 415
  | Throw (ThrownError _) => False
  end.
Proof.
  destruct (charset_of_defined ctype) as (cs & _ & Hcs).
  rewrite (TEXT_DESERIALIZER_charset _ _ _ Hcs).
  destruct (Buffer.toString data (decoder_name cs)); simpl;
    [split; reflexivity | reflexivity].
Qed.

(** X9: what follows the first charset parameter has no say: with the
    name written bare, the header may end there or go on after a
    semicolon with anything, a second charset parameter included, and
    with the name in quotes anything may follow the closing quote; the
    deserializer's result is the same. *)
Theorem first_parameter_wins
        (pre ws kw name post post' : jsstring) (data : Buffer.t) :
  lead_in_free pre ->
  Forall (fun c => RegExp.is_space c = true) ws ->
  ci_eq kw (lit "charset=") ->
  plain_name name ->
  let lead := pre ++ semicolon :: ws ++ kw in
  TEXT_DESERIALIZER data (lead ++ name ++ semicolon :: post)
  = TEXT_DESERIALIZER data (lead ++ name) /\
  TEXT_DESERIALIZER data (lead ++ quote :: name ++ quote :: post)
  = TEXT_DESERIALIZER data (lead ++ name) /\
  TEXT_DESERIALIZER data (lead ++ quote :: name ++ quote :: post)
  = TEXT_DESERIALIZER data (lead ++ quote :: name ++ quote :: post').
Proof.
  intros Hpre Hws Hkw Hname lead.
  assert (H : forall ctype, names_charset ctype name ->
             TEXT_DESERIALIZER data ctype
             = text_outcome (Buffer.toString data (decoder_name name))).
  { intros ctype Hn. apply TEXT_DESERIALIZER_charset.
    now apply names_charset_of. }
  assert (Hb : names_charset (lead ++ name) name).
  { exists pre, ws, kw, []. repeat split; try assumption.
    left. unfold lead.
    repeat (rewrite <- app_assoc; simpl). reflexivity. }
  assert (Ht : names_charset (lead ++ name ++ semicolon :: post) name).
  { exists pre, ws, kw, post. repeat split; try assumption.
    right; left. unfold lead.
    repeat (rewrite <- app_assoc; simpl). reflexivity. }
  assert (Hq : forall p, names_charset (lead ++ quote :: name ++ quote :: p) name).
  { intros p. exists pre, ws, kw, p. repeat split; try assumption.
    right; right. unfold lead.
    repeat (rewrite <- app_assoc; simpl). reflexivity. }
  rewrite (H _ Hb), (H _ Ht), !(H _ (Hq _)). repeat split.
Qed.

Lemma first_parameter_wins_witness :
  TEXT_DESERIALIZER cafe_utf8
    (lit "text/plain; charset=iso-8859-1; charset=utf-8")
  = TEXT_DESERIALIZER cafe_utf8 (lit "text/plain; charset=iso-8859-1").
Proof.
  destruct (first_parameter_wins (lit "text/plain") [0x20] (lit "charset=")
              (lit "iso-8859-1") (lit " charset=utf-8") [] cafe_utf8)
    as [H _];
    [vm_compute; reflexivity | compute_done | reflexivity
    | split; [discriminate | compute_done] |].
  exact H.
Defined.

Section ApplicationFacts.
Variable Application : Type.
Variable Application_new : jsvalue -> completion Application.

(** X10: [createApplication] never hands the constructor of
    [Application] a falsy value: truthy options go through as they are,
    and in place of missing, [null] or otherwise falsy options the
    constructor receives an empty object, so that a call without
    options does what a call with [{}] does. *)
Theorem createApplication_options (options : jsvalue) :
  exists passed,
    createApplication Application Application_new options
    = Application_new passed /\
    truthy passed = true /\
    (truthy options = true -> passed = options) /\
    (truthy options = false ->
     passed = object_literal [] /\
     createApplication Application Application_new options
     = createApplication Application Application_new (object_literal [])).
Proof.
  unfold createApplication. destruct (truthy options) eqn:E.
  - exists options. repeat split; try assumption; discriminate.
  - exists (object_literal []). repeat split; discriminate.
Qed.
End ApplicationFacts.

(** *** Names the table lacks *)

Lemma ascii_lower_of_upper (x c : Z) :
  ascii_upper_unit x = ascii_upper_unit c ->
  ascii_lower_unit x = ascii_lower_unit c.
Proof.
  unfold ascii_upper_unit, ascii_lower_unit.
  repeat case_if; bool_hyps; lia.
Qed.

Lemma ci_eq_lower (a b : jsstring) :
  ci_eq a b -> map ascii_lower_unit a = map ascii_lower_unit b.
Proof.
  unfold ci_eq. revert b. induction a as [|x a IH]; intros [|c b] H;
    simpl in H; try discriminate; [reflexivity|].
  injection H as Hx Hr. simpl.
  now rewrite (ascii_lower_of_upper _ _ Hx), (IH _ Hr).
Qed.

Lemma getEncodingOps_lower (a b : jsstring) :
  map ascii_lower_unit a = map ascii_lower_unit b ->
  Buffer.getEncodingOps a = Buffer.getEncodingOps b.
Proof. intros H. unfold Buffer.getEncodingOps. now rewrite H. Qed.

Lemma node_only_names_facts (n : jsstring) (e : Buffer.encoding) :
  In (n, e) node_only_names ->
  is_ascii n /\
  Buffer.getEncodingOps n = Some e /\
  get_property CHARSETS_MAP (map ascii_upper_unit n) = None /\
  n <> [] /\
  Forall (fun c => ascii_upper_unit c <> quote) n /\
  Forall (fun c => ascii_upper_unit c <> semicolon) n.
Proof.
  unfold node_only_names. simpl.
  intros H.
  repeat (destruct H as [H|H];
          [injection H as <- <-;
           repeat split;
           first [ reflexivity | discriminate
                 | unfold is_ascii; repeat constructor; vm_compute; discriminate
                 | repeat constructor; vm_compute; discriminate ]|]).
  destruct H.
Qed.

(** X11: the fall-back to the raw name opens every encoding of Node's
    [Buffer] to the client: a charset parameter that names utf8, ucs2,
    ucs-2, utf16le, latin1, binary, ascii, base64, base64url or hex, in
    any ASCII case, is not in [CHARSETS_MAP], reaches the decoder as it
    is, and the text returned is the body in that encoding (so the hex
    dump or the Base64 form of the body for the last three). *)
Theorem node_names_pass_through
        (ctype name n : jsstring) (e : Buffer.encoding) (data : Buffer.t) :
  names_charset ctype name ->
  In (n, e) node_only_names ->
  ci_eq name n ->
  decoder_name name = name /\
  TEXT_DESERIALIZER data ctype
  = Normal (object_literal [("text"%string, JStr (Buffer.slice e data))]).
Proof.
  intros Hnames Hin Hci.
  destruct (node_only_names_facts n e Hin) as (Ha & He & Hg & Hne & Hq & Hs).
  assert (Hraw : decoder_name name = name).
  { rewrite decoder_name_spec, (ci_eq_toUpperCase _ _ Ha Hci). now rewrite Hg. }
  assert (Hplain : plain_name name).
  { split.
    - intros ->. destruct n; [contradiction | discriminate Hci].
    - pose proof (ci_eq_avoids quote _ _ eq_refl Hci Hq) as H1.
      pose proof (ci_eq_avoids semicolon _ _ eq_refl Hci Hs) as H2.
      apply Forall_forall. intros c Hc. rewrite Forall_forall in H1, H2.
      split; [apply H1 | apply H2]; exact Hc. }
  split; [exact Hraw|].
  rewrite (TEXT_DESERIALIZER_charset _ _ name)
    by (now apply names_charset_of).
  rewrite Hraw.
  rewrite (toString_known data name e); [reflexivity|].
  rewrite (getEncodingOps_lower name n (ci_eq_lower _ _ Hci)). exact He.
Qed.

Lemma node_names_pass_through_witness :
  TEXT_DESERIALIZER cafe_utf8 (lit "text/plain; charset=HEX")
  = Normal (object_literal [("text"%string, JStr (lit "636166c3a9"))]).
Proof.
  destruct (node_names_pass_through (lit "text/plain; charset=HEX") (lit "HEX")
              (lit "hex") Buffer.hex cafe_utf8) as [_ H].
  - exists (lit "text/plain"), [0x20], (lit "charset="), [].
    split; [vm_compute; reflexivity|]. split; [compute_done|].
    split; [reflexivity|]. left. reflexivity.
  - simpl. tauto.
  - reflexivity.
  - exact H.
Defined.

(** *** White space at the end of a bare name *)

Lemma space_upper_units (c : Z) :
  RegExp.is_space c = true -> upper_units c = [c].
Proof.
  unfold RegExp.is_space. intros H. bool_hyps;
    unfold upper_units;
    repeat (case_if; [bool_hyps; lia|]); reflexivity.
Qed.

Lemma space_ascii_lower (c : Z) :
  RegExp.is_space c = true -> ascii_lower_unit c = c.
Proof.
  unfold RegExp.is_space, ascii_lower_unit. intros H.
  case_if; [|reflexivity]. bool_hyps; lia.
Qed.

Lemma toUpperCase_spaces (trail : jsstring) :
  Forall (fun c => RegExp.is_space c = true) trail ->
  toUpperCase trail = trail.
Proof.
  unfold toUpperCase. induction 1 as [|c l Hc _ IH]; [reflexivity|].
  simpl. now rewrite (space_upper_units c Hc), IH.
Qed.

Lemma last_map_unit (f : Z -> Z) (s : jsstring) :
  last (map f s) = option_map f (last s).
Proof.
  induction s as [|x [|y s] IH]; try reflexivity. exact IH.
Qed.

(** A string that ends in white space is no key of the table and no
    name of an encoding. *)
Lemma ends_in_space_unknown (s : jsstring) (c : Z) :
  last s = Some c -> RegExp.is_space c = true ->
  get_property CHARSETS_MAP s = None /\
  Buffer.getEncodingOps s = None.
Proof.
  intros Hlast Hc. split.
  - destruct (get_property CHARSETS_MAP s) as [v|] eqn:E; [exfalso | reflexivity].
    apply get_property_CHARSETS_MAP in E as [Hin _].
    unfold CHARSETS_MAP in Hin. simpl in Hin.
    destruct Hin as [H|[H|[H|[H|[]]]]]; injection H as <- _;
      vm_compute in Hlast; injection Hlast as <-; discriminate Hc.
  - assert (Hm : last (map ascii_lower_unit s) = Some c).
    { rewrite last_map_unit, Hlast. simpl. now rewrite (space_ascii_lower c Hc). }
    destruct (Buffer.getEncodingOps s) as [e|] eqn:E; [exfalso | reflexivity].
    unfold Buffer.getEncodingOps, jsstring_eqb in E.
    revert E Hm. generalize (map ascii_lower_unit s). intros m E Hm.
    revert E.
    repeat (case_bool_decide as Hk;
            [exfalso; subst m; vm_compute in Hm; injection Hm as Hm; subst c;
             vm_compute in Hc; discriminate Hc
            | clear Hk]).
    simpl. discriminate.
Qed.

Lemma last_app_nonempty (a b : jsstring) :
  b <> [] -> last (a ++ b) = last b.
Proof.
  intros Hb. destruct (last b) as [c|] eqn:E.
  - apply last_Some in E as [b' ->]. rewrite app_assoc. apply last_snoc.
  - apply last_None in E. contradiction.
Qed.

(** X6: a bare charset name is taken up to the next semicolon (or the
    end of the header) without trimming.  White space between the name
    and that point becomes part of the name; such a name is neither a key
    of [CHARSETS_MAP] nor an encoding of Node's, so a non-empty body is
    refused with the 415 response that quotes the name with its white
    space, even when the name proper is a charset of the table. *)
Theorem bare_name_keeps_white_space
        (pre ws kw name trail post : jsstring) (data : Buffer.t) :
  lead_in_free pre ->
  Forall (fun c => RegExp.is_space c = true) ws ->
  ci_eq kw (lit "charset=") ->
  plain_name name ->
  (0 < length trail)%nat ->
  Forall (fun c => RegExp.is_space c = true) trail ->
  (0 < length data)%nat ->
  let refused :=
    Throw (ThrownResponse
             (unsupported_media_type
                (lit "Unknown encoding: " ++ name ++ trail))) in
  let lead := pre ++ semicolon :: ws ++ kw in
  charset_of (lead ++ name ++ trail) = Some (name ++ trail) /\
  charset_of (lead ++ name ++ trail ++ semicolon :: post)
  = Some (name ++ trail) /\
  TEXT_DESERIALIZER data (lead ++ name ++ trail) = refused /\
  TEXT_DESERIALIZER data (lead ++ name ++ trail ++ semicolon :: post)
  = refused.
Proof.
  intros Hpre Hws Hkw [Hne Hplain] Hlen Htrail Hdata refused lead.
  assert (Htne : trail <> []) by (destruct trail; [simpl in Hlen; lia | discriminate]).
  assert (Hdne : data <> []) by (destruct data; [simpl in Hdata; lia | discriminate]).
  assert (Hc : match name ++ trail with [] => True | c :: _ => c <> quote end).
  { destruct name as [|c n']; [contradiction|]. simpl.
    inversion Hplain as [|? ? [Hq _] _]; subst. exact Hq. }
  assert (Hs : Forall (fun c => c <> semicolon) (tail (name ++ trail))).
  { destruct name as [|c n']; [contradiction|]. simpl.
    inversion Hplain as [|? ? _ Hrest]; subst.
    apply Forall_app. split.
    - eapply Forall_impl; [exact Hrest | intros ? [? ?]; assumption].
    - apply space_not_semicolon, Htrail. }
  assert (Hnn : name ++ trail <> []) by (destruct name; [contradiction | discriminate]).
  assert (H1 : charset_of (lead ++ name ++ trail) = Some (name ++ trail)).
  { unfold lead. repeat (rewrite <- app_assoc; simpl).
    rewrite <- (app_nil_r trail) at 1. rewrite (app_assoc name trail []).
    apply charset_of_unquoted; try assumption. exact I. }
  assert (H2 : charset_of (lead ++ name ++ trail ++ semicolon :: post)
               = Some (name ++ trail)).
  { unfold lead. repeat (rewrite <- app_assoc; simpl).
    rewrite (app_assoc name trail).
    apply charset_of_unquoted; try assumption. reflexivity. }
  destruct (last trail) as [c|] eqn:El; [|apply last_None in El; contradiction].
  assert (Hcs : RegExp.is_space c = true).
  { apply last_Some in El as [t' ->].
    apply Forall_app in Htrail as [_ Hl]. now inversion Hl. }
  assert (Hup : toUpperCase (name ++ trail) = toUpperCase name ++ trail).
  { unfold toUpperCase. rewrite flat_map_app.
    f_equal. apply (toUpperCase_spaces trail Htrail). }
  assert (Hraw : decoder_name (name ++ trail) = name ++ trail).
  { rewrite decoder_name_spec, Hup.
    destruct (ends_in_space_unknown (toUpperCase name ++ trail) c) as [Hg _];
      [now rewrite last_app_nonempty | exact Hcs |].
    now rewrite Hg. }
  assert (Hunk : Buffer.getEncodingOps (name ++ trail) = None).
  { destruct (ends_in_space_unknown (name ++ trail) c) as [_ Hg];
      [now rewrite last_app_nonempty | exact Hcs | exact Hg]. }
  assert (Hout : text_outcome (Buffer.toString data (decoder_name (name ++ trail)))
                 = refused).
  { rewrite Hraw, (toString_unknown data _ Hdne Hunk). reflexivity. }
  split; [exact H1|]. split; [exact H2|]. split.
  - now rewrite (TEXT_DESERIALIZER_charset _ _ _ H1).
  - now rewrite (TEXT_DESERIALIZER_charset _ _ _ H2).
Qed.

Lemma bare_name_keeps_white_space_witness :
  charset_of (lit "text/plain; charset=utf-8 ; format=flowed")
  = Some (lit "utf-8 ") /\
  TEXT_DESERIALIZER cafe_utf8 (lit "text/plain; charset=utf-8 ; format=flowed")
  = Throw (ThrownResponse
             (unsupported_media_type (lit "Unknown encoding: utf-8 "))).
Proof.
  destruct (bare_name_keeps_white_space
              (lit "text/plain") [0x20] (lit "charset=") (lit "utf-8")
              [0x20] (lit " format=flowed") cafe_utf8)
    as (_ & H2 & _ & H4);
    [vm_compute; reflexivity | compute_done | reflexivity
    | split; [discriminate | compute_done]
    | simpl; lia | compute_done | simpl; lia |].
  split; [exact H2 | exact H4].
Defined.

(** *** Round trips *)

Lemma all_from_spec (ok : Z -> bool) (n : nat) :
  forall lo, all_from ok lo n = true ->
  forall c, lo <= c < lo + Z.of_nat n -> ok c = true.
Proof.
  induction n as [|n IH]; intros lo H c Hc; [lia|].
  simpl in H. apply andb_true_iff in H as [H0 H1].
  destruct (Z.eq_dec c lo) as [->|Hne]; [exact H0|].
  apply (IH (lo + 1) H1). lia.
Qed.

Lemma utf8_points_run (bs rest : list Z) :
  forall st,
    Buffer.utf8_points (bs ++ rest) st
    = (utf8_run bs st).1 ++ Buffer.utf8_points rest (utf8_run bs st).2.
Proof.
  induction bs as [|b bs IH]; intros st; [reflexivity|].
  simpl. destruct st as [[[[cp n] lo] hi]|].
  - destruct ((lo <=? b) && (b <=? hi)).
    + destruct n as [|[|n]].
      * rewrite IH. reflexivity.
      * rewrite IH. destruct (utf8_run bs None). reflexivity.
      * rewrite IH. reflexivity.
    + destruct (Buffer.utf8_lead b) as [out st']. rewrite IH.
      destruct (utf8_run bs st'). simpl. now rewrite <- app_assoc.
  - destruct (Buffer.utf8_lead b) as [out st']. rewrite IH.
    destruct (utf8_run bs st'). simpl. now rewrite <- app_assoc.
Qed.

Lemma utf8_unit_round_trip (c : Z) :
  bmp_scalar c -> utf8_run (utf8_bytes c) None = ([c], None).
Proof.
  intros Hc.
  assert (Hok : utf8_unit_ok c = true).
  { destruct Hc as [Hc|Hc].
    - apply (all_from_spec utf8_unit_ok (Z.to_nat 0xD800) 0);
        [vm_compute; reflexivity | lia].
    - apply (all_from_spec utf8_unit_ok (Z.to_nat 0x2000) 0xE000);
        [vm_compute; reflexivity | lia]. }
  unfold utf8_unit_ok in Hok.
  destruct (utf8_run (utf8_bytes c) None) as [[|c' [|]] [st|]];
    try discriminate.
  apply Z.eqb_eq in Hok. now subst.
Qed.

Lemma utf8_points_encode (s : jsstring) :
  Forall bmp_scalar s -> Buffer.utf8_points (utf8_encode s) None = s.
Proof.
  induction 1 as [|c s Hc _ IH]; [reflexivity|].
  unfold utf8_encode in *. simpl.
  rewrite utf8_points_run, (utf8_unit_round_trip c Hc). simpl. now rewrite IH.
Qed.

Lemma utf16_units_bmp (s : jsstring) :
  Forall (fun c => c < 0x10000) s -> flat_map Buffer.utf16_units s = s.
Proof.
  induction 1 as [|c s Hc _ IH]; [reflexivity|].
  simpl. unfold Buffer.utf16_units at 1.
  destruct (Z.ltb_spec c 0x10000); [|lia]. simpl. now rewrite IH.
Qed.

Lemma utf8Slice_encode (s : jsstring) (data : Buffer.t) :
  Forall bmp_scalar s -> map Buffer.octet data = utf8_encode s ->
  Buffer.utf8Slice data = s.
Proof.
  intros Hs Hd. unfold Buffer.utf8Slice.
  rewrite Hd, (utf8_points_encode s Hs).
  apply utf16_units_bmp. eapply Forall_impl; [exact Hs|].
  intros c [H|H]; lia.
Qed.

Lemma ucs2_unit_round_trip (c : Z) :
  0 <= c < 0x10000 ->
  Z.lor (Z.land c 0xFF) (Z.shiftl (Z.shiftr c 8) 8) = c.
Proof.
  intros Hc.
  assert (Hok : ucs2_unit_ok c = true)
    by (apply (all_from_spec ucs2_unit_ok (Z.to_nat 0x10000) 0);
        [vm_compute; reflexivity | lia]).
  unfold ucs2_unit_ok, ucs2_bytes in Hok. now apply Z.eqb_eq in Hok.
Qed.

Lemma ucs2Slice_encode (s : jsstring) (data : Buffer.t) :
  Forall (fun c => 0 <= c < 0x10000) s ->
  map Buffer.octet data = ucs2_encode s ->
  Buffer.ucs2Slice data = s.
Proof.
  intros Hs Hd. unfold Buffer.ucs2Slice. rewrite Hd. clear Hd.
  induction Hs as [|c s Hc _ IH]; [reflexivity|].
  unfold ucs2_encode in *. simpl.
  now rewrite (ucs2_unit_round_trip c Hc), IH.
Qed.

(** A charset of the table, named by the header in any ASCII case, makes
    the deserializer return the body under the table's decoder. *)
Lemma table_charset_decodes
      (ctype name key canonical : jsstring) (e : Buffer.encoding)
      (data : Buffer.t) :
  names_charset ctype name ->
  In (key, canonical) CHARSETS_MAP ->
  ci_eq name key ->
  Buffer.getEncodingOps canonical = Some e ->
  TEXT_DESERIALIZER data ctype
  = Normal (object_literal [("text"%string, JStr (Buffer.slice e data))]).
Proof.
  intros Hn Hin Hci He.
  rewrite (TEXT_DESERIALIZER_charset _ _ name)
    by (apply names_charset_of; [exact Hn | exact (known_name_is_plain _ _ _ Hin Hci)]).
  now rewrite (decoder_name_ci _ _ _ Hin Hci), (toString_known _ _ _ He).
Qed.

(** X4: a header whose first charset parameter names one of the four
    charsets of [CHARSETS_MAP], in any ASCII case, makes
    [TEXT_DESERIALIZER] return the text in that encoding, for every
    buffer: US-ASCII the bytes with the high bit cleared, ISO-8859-1 the
    bytes as code units, UTF-8 the UTF-8 decoding, UTF-16LE the
    little-endian pairs.  The parameter may be written bare, the name
    followed at once by the end of the header or by a semicolon and
    anything, or between quotes with anything after the closing quote. *)
Theorem known_charsets_decode (ctype name : jsstring) (data : Buffer.t) :
  names_charset ctype name ->
  let text_is s :=
    TEXT_DESERIALIZER data ctype
    = Normal (object_literal [("text"%string, JStr s)]) in
  (ci_eq name (lit "US-ASCII") -> text_is (Buffer.asciiSlice data)) /\
  (ci_eq name (lit "ISO-8859-1") -> text_is (Buffer.latin1Slice data)) /\
  (ci_eq name (lit "UTF-8") -> text_is (Buffer.utf8Slice data)) /\
  (ci_eq name (lit "UTF-16LE") -> text_is (Buffer.ucs2Slice data)).
Proof.
  intros Hn text_is. unfold text_is. repeat split; intros Hci.
  - apply (table_charset_decodes ctype name (lit "US-ASCII") (lit "ascii")
             Buffer.ascii data Hn); [simpl; tauto | exact Hci | reflexivity].
  - apply (table_charset_decodes ctype name (lit "ISO-8859-1") (lit "latin1")
             Buffer.latin1 data Hn); [simpl; tauto | exact Hci | reflexivity].
  - apply (table_charset_decodes ctype name (lit "UTF-8") (lit "utf8")
             Buffer.utf8 data Hn); [simpl; tauto | exact Hci | reflexivity].
  - apply (table_charset_decodes ctype name (lit "UTF-16LE") (lit "utf16le")
             Buffer.ucs2 data Hn); [simpl; tauto | exact Hci | reflexivity].
Qed.

Lemma known_charsets_decode_witness :
  TEXT_DESERIALIZER cafe_utf8
    (lit "text/plain; charset=iso-8859-1; format=flowed")
  = Normal (object_literal
              [("text"%string, JStr (lit "caf" ++ [0xC3; 0xA9]))]) /\
  TEXT_DESERIALIZER cafe_utf8
    (lit "text/plain;charset=" ++ quote :: lit "Utf-8" ++ quote :: lit "; x=1")
  = Normal (object_literal [("text"%string, JStr cafe)]).
Proof.
  split.
  - destruct (known_charsets_decode
                (lit "text/plain; charset=iso-8859-1; format=flowed")
                (lit "iso-8859-1") cafe_utf8) as (_ & Hlatin & _ & _).
    + exists (lit "text/plain"), [0x20], (lit "charset="), (lit " format=flowed").
      split; [vm_compute; reflexivity|]. split; [compute_done|].
      split; [reflexivity|]. right; left. reflexivity.
    + apply Hlatin. reflexivity.
  - destruct (known_charsets_decode
                (lit "text/plain;charset=" ++ quote :: lit "Utf-8"
                 ++ quote :: lit "; x=1")
                (lit "Utf-8") cafe_utf8) as (_ & _ & Hutf8 & _).
    + exists (lit "text/plain"), [], (lit "charset="), (lit "; x=1").
      split; [vm_compute; reflexivity|]. split; [constructor|].
      split; [reflexivity|]. right; right. reflexivity.
    + apply Hutf8. reflexivity.
Defined.

Lemma default_charset_decodes (ctype : jsstring) (data : Buffer.t) :
  lead_in_free ctype ->
  TEXT_DESERIALIZER data ctype
  = Normal (object_literal [("text"%string, JStr (Buffer.utf8Slice data))]).
Proof.
  intros H. pose proof (lead_in_free_no_match ctype H) as Hm.
  rewrite (TEXT_DESERIALIZER_charset _ _ (lit "UTF-8"))
    by (unfold charset_of; now rewrite Hm).
  change (decoder_name (lit "UTF-8")) with (lit "utf8").
  now rewrite toString_utf8.
Qed.

(** X12: UTF-8 round trip.  Let [s] be a string of characters of the
    Basic Multilingual Plane (no surrogates) and let the body be its
    UTF-8 encoding.  Then [TEXT_DESERIALIZER] returns [{text: s}], both
    when the header has no charset parameter and when its first charset
    parameter names UTF-8 (in any ASCII case). *)
Theorem utf8_round_trip (s ctype name : jsstring) (data : Buffer.t) :
  Forall bmp_scalar s ->
  map Buffer.octet data = utf8_encode s ->
  lead_in_free ctype \/ (names_charset ctype name /\ ci_eq name (lit "UTF-8")) ->
  TEXT_DESERIALIZER data ctype
  = Normal (object_literal [("text"%string, JStr s)]).
Proof.
  intros Hs Hd [Hfree|[Hn Hci]].
  - now rewrite (default_charset_decodes _ _ Hfree), (utf8Slice_encode s data Hs Hd).
  - rewrite (table_charset_decodes ctype name (lit "UTF-8") (lit "utf8")
               Buffer.utf8 data Hn); try reflexivity; try assumption.
    + simpl. now rewrite (utf8Slice_encode s data Hs Hd).
    + simpl. tauto.
Qed.

Lemma utf8_round_trip_witness :
  TEXT_DESERIALIZER [xe2; x82; xac; x20; x63; x61; x66; xc3; xa9]
                    (lit "application/x-note")
  = Normal (object_literal
              [("text"%string, JStr ([0x20AC; 0x20] ++ cafe))]).
Proof.
  apply (utf8_round_trip ([0x20AC; 0x20] ++ cafe) (lit "application/x-note") []
                         [xe2; x82; xac; x20; x63; x61; x66; xc3; xa9]).
  - repeat constructor; vm_compute; intuition discriminate.
  - vm_compute; reflexivity.
  - left. vm_compute; reflexivity.
Defined.

(** X13: UTF-16LE round trip.  Let [s] be any string and let the body be
    its code units as little-endian byte pairs.  Then with a header whose
    first charset parameter names UTF-16LE (in any ASCII case)
    [TEXT_DESERIALIZER] returns [{text: s}], surrogates included. *)
Theorem utf16le_round_trip (s ctype name : jsstring) (data : Buffer.t) :
  Forall (fun c => 0 <= c < 0x10000) s ->
  map Buffer.octet data = ucs2_encode s ->
  names_charset ctype name ->
  ci_eq name (lit "UTF-16LE") ->
  TEXT_DESERIALIZER data ctype
  = Normal (object_literal [("text"%string, JStr s)]).
Proof.
  intros Hs Hd Hn Hci.
  rewrite (table_charset_decodes ctype name (lit "UTF-16LE") (lit "utf16le")
             Buffer.ucs2 data Hn); try reflexivity; try assumption.
  - simpl. now rewrite (ucs2Slice_encode s data Hs Hd).
  - simpl. tauto.
Qed.

Lemma utf16le_round_trip_witness :
  TEXT_DESERIALIZER [x63; x00; x61; x00; x66; x00; xe9; x00]
                    (lit "text/plain;charset=utf-16le")
  = Normal (object_literal [("text"%string, JStr cafe)]).
Proof.
  apply (utf16le_round_trip cafe (lit "text/plain;charset=utf-16le")
                            (lit "utf-16le")).
  - repeat constructor; vm_compute; discriminate.
  - vm_compute; reflexivity.
  - exists (lit "text/plain"), [], (lit "charset="), [].
    split; [vm_compute; reflexivity|]. split; [constructor|].
    split; [reflexivity|]. left. reflexivity.
  - reflexivity.
Defined.

Lemma octet_nonneg (b : byte) : 0 <= Buffer.octet b.
Proof. unfold Buffer.octet. lia. Qed.

Lemma utf8_points_ascii (bs : list Z) :
  Forall (fun b => 0 <= b < 0x80) bs -> Buffer.utf8_points bs None = bs.
Proof.
  induction 1 as [|b bs Hb _ IH]; [reflexivity|].
  simpl. unfold Buffer.utf8_lead.
  destruct (Z.leb_spec b 0x7F); [|lia]. simpl. now rewrite IH.
Qed.

Lemma ascii_body_slices (data : Buffer.t) :
  Forall (fun b => Buffer.octet b < 0x80) data ->
  Buffer.utf8Slice data = map Buffer.octet data /\
  Buffer.asciiSlice data = map Buffer.octet data /\
  Buffer.latin1Slice data = map Buffer.octet data.
Proof.
  intros H.
  assert (Hz : Forall (fun b => 0 <= b < 0x80) (map Buffer.octet data)).
  { induction H as [|b l Hb _ IH]; constructor; [|exact IH].
    pose proof (octet_nonneg b). lia. }
  split; [|split; [|reflexivity]].
  - unfold Buffer.utf8Slice. rewrite (utf8_points_ascii _ Hz).
    apply utf16_units_bmp. eapply Forall_impl; [exact Hz|]. intros; simpl in *; lia.
  - unfold Buffer.asciiSlice. apply map_ext_in. intros b Hb.
    rewrite Forall_forall in H. apply list_elem_of_In in Hb.
    specialize (H b Hb). pose proof (octet_nonneg b).
    change 0x7F with (Z.ones 7). rewrite Z.land_ones by lia.
    apply Z.mod_small. simpl. lia.
Qed.

(** X14: on a body of ASCII bytes the charsets agree: whether the header
    has no charset parameter or names US-ASCII, ISO-8859-1 or UTF-8 (in
    any ASCII case), [TEXT_DESERIALIZER] returns the same text, one code
    unit per byte with the byte's value. *)
Theorem ascii_body_same_text (ctype name : jsstring) (data : Buffer.t) :
  Forall (fun b => Buffer.octet b < 0x80) data ->
  lead_in_free ctype \/
  (names_charset ctype name /\
   (ci_eq name (lit "US-ASCII") \/ ci_eq name (lit "ISO-8859-1") \/
    ci_eq name (lit "UTF-8"))) ->
  TEXT_DESERIALIZER data ctype
  = Normal (object_literal [("text"%string, JStr (map Buffer.octet data))]).
Proof.
  intros Ha Hform. destruct (ascii_body_slices data Ha) as (Hu & Has & Hl).
  destruct Hform as [Hfree|[Hn [Hci|[Hci|Hci]]]].
  - now rewrite (default_charset_decodes _ _ Hfree), Hu.
  - rewrite (table_charset_decodes ctype name (lit "US-ASCII") (lit "ascii")
               Buffer.ascii data Hn); try reflexivity; try assumption.
    + simpl. now rewrite Has.
    + simpl. tauto.
  - rewrite (table_charset_decodes ctype name (lit "ISO-8859-1") (lit "latin1")
               Buffer.latin1 data Hn); try reflexivity; try assumption.
    simpl. tauto.
  - rewrite (table_charset_decodes ctype name (lit "UTF-8") (lit "utf8")
               Buffer.utf8 data Hn); try reflexivity; try assumption.
    + simpl. now rewrite Hu.
    + simpl. tauto.
Qed.

Lemma ascii_body_same_text_witness :
  TEXT_DESERIALIZER [x6f; x6b] (lit "text/plain; charset=us-ascii")
  = Normal (object_literal [("text"%string, JStr (lit "ok"))]).
Proof.
  apply (ascii_body_same_text (lit "text/plain; charset=us-ascii")
                              (lit "us-ascii") [x6f; x6b]).
  - repeat constructor.
  - right. split.
    + exists (lit "text/plain"), [0x20], (lit "charset="), [].
      split; [vm_compute; reflexivity|]. split; [compute_done|].
      split; [reflexivity|]. left. reflexivity.
    + left. reflexivity.
Defined.

(** *** Parameters the pattern does not accept *)









Lemma starts_with_semicolon_unknown (next : jsstring) :
  decoder_name (semicolon :: next) = semicolon :: next /\
  Buffer.getEncodingOps (semicolon :: next) = None.
Proof.
  split.
  - apply decoder_name_raw. intros key canonical Hin Heq.
    unfold CHARSETS_MAP in Hin. simpl in Hin.
    destruct Hin as [H|[H|[H|[H|[]]]]]; injection H as <- _;
      discriminate Heq.
  - unfold Buffer.getEncodingOps, jsstring_eqb.
    repeat (case_bool_decide as Hk; [discriminate Hk | clear Hk]).
    reflexivity.
Qed.

(** X16: an empty bare value takes the next parameter for its name.
    When [charset=] is followed at once by a semicolon, the semicolon and
    what follows it up to the next semicolon (or the end of the header)
    are the charset name; no decoder has such a name, so a non-empty body
    is refused with the 415 response. *)
Theorem empty_bare_value_takes_next_parameter
        (pre ws kw next post : jsstring) (data : Buffer.t) :
  lead_in_free pre ->
  Forall (fun c => RegExp.is_space c = true) ws ->
  ci_eq kw (lit "charset=") ->
  Forall (fun c => c <> semicolon) next ->
  (0 < length data)%nat ->
  let refused :=
    Throw (ThrownResponse
             (unsupported_media_type
                (lit "Unknown encoding: " ++ semicolon :: next))) in
  let lead := pre ++ semicolon :: ws ++ kw in
  charset_of (lead ++ semicolon :: next) = Some (semicolon :: next) /\
  TEXT_DESERIALIZER data (lead ++ semicolon :: next) = refused /\
  TEXT_DESERIALIZER data (lead ++ semicolon :: next ++ semicolon :: post)
  = refused.
Proof.
  intros Hpre Hws Hkw Hnext Hdata refused lead.
  assert (Hdne : data <> []) by (destruct data; [simpl in Hdata; lia | discriminate]).
  destruct (starts_with_semicolon_unknown next) as [Hraw Hunk].
  assert (H1 : charset_of (lead ++ semicolon :: next) = Some (semicolon :: next)).
  { unfold lead. repeat (rewrite <- app_assoc; simpl).
    rewrite <- (app_nil_r next) at 1.
    apply (charset_of_unquoted pre ws kw (semicolon :: next) []);
      try assumption; try discriminate. exact I. }
  assert (H2 : charset_of (lead ++ semicolon :: next ++ semicolon :: post)
               = Some (semicolon :: next)).
  { unfold lead. repeat (rewrite <- app_assoc; simpl).
    apply (charset_of_unquoted pre ws kw (semicolon :: next) (semicolon :: post));
      try assumption; try discriminate. reflexivity. }
  assert (Hout : text_outcome
                   (Buffer.toString data (decoder_name (semicolon :: next)))
                 = refused).
  { rewrite Hraw, (toString_unknown data _ Hdne Hunk). reflexivity. }
  split; [exact H1|]. split.
  - now rewrite (TEXT_DESERIALIZER_charset _ _ _ H1).
  - now rewrite (TEXT_DESERIALIZER_charset _ _ _ H2).
Qed.

Lemma empty_bare_value_takes_next_parameter_witness :
  TEXT_DESERIALIZER cafe_utf8 (lit "text/plain; charset=; format=flowed")
  = Throw (ThrownResponse
             (unsupported_media_type
                (lit "Unknown encoding: ; format=flowed"))).
Proof.
  destruct (empty_bare_value_takes_next_parameter
              (lit "text/plain") [0x20] (lit "charset=") (lit " format=flowed")
              [] cafe_utf8) as (_ & H & _);
    [vm_compute; reflexivity | compute_done | reflexivity | compute_done
    | simpl; lia |].
  exact H.
Defined.
